(** * Numerical derivative node of the Poincare expression engine

    A shallow embedding of [poincare/src/derivative.cpp]: the polynomial
    degree rule of [DerivativeNode], the central-difference growth rate,
    Ridders' extrapolation table and the adaptive step search of
    [templatedApproximate], followed by the properties established about
    them.

    The scalar type [T] of the C++ templates is either [float] or [double].
    Both are modelled by IEEE 754 binary floating-point numbers
    ([spec_float] of the standard library), the arithmetic being performed
    at the precision selected by a [Width]. *)

From Stdlib Require Import ZArith Bool Lia.
From Stdlib Require Import Floats.SpecFloat.
From stdpp Require Import gmap strings list fin_maps.

Local Open Scope Z_scope.

(** ** The scalar type *)

Module Scalar.

(** The two instantiations of [template<typename T>]. *)
Inductive Width := Single | Double.

Definition prec (w : Width) : Z :=
  match w with Single => 24 | Double => 53 end.

Definition emax (w : Width) : Z :=
  match w with Single => 128 | Double => 1024 end.

Definition zero : spec_float := S754_zero false.
Definition nan : spec_float := S754_nan.
Definition pinf : spec_float := S754_infinity false.

(** Conversion of an integer literal to the scalar type. *)
Definition ofZ (w : Width) (z : Z) : spec_float :=
  binary_normalize (prec w) (emax w) z 0 false.

Definition one (w : Width) : spec_float := ofZ w 1.
Definition two (w : Width) : spec_float := ofZ w 2.
Definition ten (w : Width) : spec_float := ofZ w 10.

Definition add (w : Width) := SFadd (prec w) (emax w).
Definition sub (w : Width) := SFsub (prec w) (emax w).
Definition mul (w : Width) := SFmul (prec w) (emax w).
Definition div (w : Width) := SFdiv (prec w) (emax w).

(** [std::fabs] and [std::isnan]. *)
Definition fabs : spec_float -> spec_float := SFabs.
Definition isnan (x : spec_float) : bool :=
  match x with S754_nan => true | _ => false end.

(** The comparison operators [<], [>] and [>=]; all three are false as
    soon as one operand is not a number. *)
Definition lt (x y : spec_float) : bool := SFltb x y.
Definition gt (x y : spec_float) : bool := SFltb y x.
Definition ge (x y : spec_float) : bool := SFleb y x.

(** Storing a [double] into a variable of type [T]: the identity for
    [double], a rounding to nearest for [float]. *)
Definition narrow (w : Width) (x : spec_float) : spec_float :=
  match w with
  | Double => x
  | Single =>
      match x with
      | S754_finite s m e => binary_round (prec Single) (emax Single) s m e
      | _ => x
      end
  end.

(** [h /= 10.0]: the literal is a [double], so the quotient is formed in
    double precision and then stored into [h]. *)
Definition div10 (w : Width) (h : spec_float) : spec_float :=
  narrow w (div Double h (ten Double)).

(** The limits of [<float.h>]. *)
Definition FLT_MAX : spec_float := S754_finite false (2 ^ 24 - 1) 104.
Definition DBL_MAX : spec_float := S754_finite false (2 ^ 53 - 1) 971.
Definition FLT_MIN : spec_float := S754_finite false (2 ^ 23) (-149).
Definition DBL_MIN : spec_float := S754_finite false (2 ^ 52) (-1074).
Definition FLT_EPSILON : spec_float := S754_finite false (2 ^ 23) (-46).
Definition DBL_EPSILON : spec_float := S754_finite false (2 ^ 52) (-104).

End Scalar.

(** ** The surrounding framework *)

(** The symbol table.  It resolves a symbol name to a value, and a name can
    be bound to a value. *)
Abbreviation Context := (gmap string spec_float).

(** The expression tree and its generic evaluator are collaborators of the
    derivative node; only their interface is used here. *)
Class Framework := {
  Expression : Type;
  AngleUnit : Type;
  (** [e->approximate(T(), context, angleUnit).toScalar()] *)
  approximateToScalar : Expression -> Context -> AngleUnit -> spec_float;
  (** the virtual [polynomialDegree] of a child *)
  childPolynomialDegree : Expression -> Context -> string -> Z;
  (** [static_cast<SymbolNode *>(e)->name()] *)
  symbolName : Expression -> string;
}.

(** The constants of the class declaration, which the source file uses but
    does not define.  [k_minInitialRate] and [k_maxErrorRateOnApproximation]
    are taken in the scalar type [T], as the values the arithmetic of the
    templates sees.  [k_rateStepSize] is taken as the [double] of its
    declaration: the quotient [hh / k_rateStepSize] and the products
    [k_rateStepSize*k_rateStepSize] and [k_rateStepSize*k_rateStepSize*fac]
    are formed in double precision, whatever [T] is, and rounded to [T]
    when they are stored into [hh] and into [fac]. *)
Class Constants := {
  k_minInitialRate : spec_float;
  k_rateStepSize : spec_float;
  k_maxErrorRateOnApproximation : spec_float;
}.

(** The functions of [<cmath>] used to round the result. *)
Class Libm := {
  pow : spec_float -> spec_float -> spec_float;
  floor : spec_float -> spec_float;
  log10 : spec_float -> spec_float;
  round : spec_float -> spec_float;
}.

(** ** Computations that receive the context by reference *)

Module Ctx.

Definition M (A : Type) : Type := Context -> A * Context.

Definition ret {A} (a : A) : M A := fun ctx => (a, ctx).

Definition bind {A B} (m : M A) (k : A -> M B) : M B :=
  fun ctx => let (a, ctx') := m ctx in k a ctx'.

(** Reading through the reference without changing what it refers to. *)
Definition read {A} (f : Context -> A) : M A := fun ctx => (f ctx, ctx).

(** A computation preserves the context when it hands it back as it
    received it. *)
Definition preserves {A} (m : M A) : Prop :=
  forall ctx, snd (m ctx) = ctx.

End Ctx.

Notation "'let*' x ':=' m 'in' k" := (Ctx.bind m (fun x => k))
  (at level 10, x name, m at level 100, k at level 200).
Notation "'let*' ' p ':=' m 'in' k" :=
  (Ctx.bind m (fun x => match x with p => k end))
  (at level 10, p pattern, m at level 100, k at level 200).

(** ** The extrapolation table *)

Module Table.

(** [T a[10][10]], indexed [a[row][column]]. *)
Abbreviation t := (list (list spec_float)).

Definition make (v : spec_float) : t := replicate 10 (replicate 10 v).

Definition get (a : t) (r c : nat) : spec_float :=
  match a !! r with
  | Some row => match row !! c with Some v => v | None => Scalar.nan end
  | None => Scalar.nan
  end.

Definition set (a : t) (r c : nat) (v : spec_float) : t :=
  alter (fun row => <[c := v]> row) r a.

(** Ten rows of ten cells. *)
Definition wf (a : t) : Prop :=
  length a = 10%nat /\ Forall (fun row => length row = 10%nat) a.

End Table.

(** ** The derivative node *)

(** Child 0 is the function body, child 1 the differentiation symbol and
    child 2 the evaluation point. *)
Record DerivativeNode `{Framework} := {
  child0 : Expression;
  child1 : Expression;
  child2 : Expression;
}.

(** The result of an approximation: [Complex<T>(v)], always real here. *)
Inductive Evaluation := Complex (v : spec_float).

(** Modelled from the spec: [Complex<T>::Undefined()] is declared outside of
    the source file; the spec describes it as the not-a-number sentinel. *)
Definition Undefined : Evaluation := Complex Scalar.nan.

Definition isUndefined (e : Evaluation) : bool :=
  match e with Complex v => Scalar.isnan v end.

(** The local variables of [riddersApproximation].  [i] is the counter of
    the loop on step sizes: it ends at the generation that broke out of the
    loop, or at 10. *)
Record Locals := {
  a : Table.t;
  hh : spec_float;
  ans : spec_float;
  errt : spec_float;
  error : spec_float;
  i : nat;
}.

Section Derivative.

Context `{FW : Framework} `{KS : Constants} `{LM : Libm}.
Variable w : Scalar.Width.

Import Scalar.

Declare Scope float_scope.
Notation "x + y" := (add w x y) : float_scope.
Notation "x - y" := (sub w x y) : float_scope.
Notation "x * y" := (mul w x y) : float_scope.
Notation "x / y" := (div w x y) : float_scope.
Notation "x <? y" := (lt x y) : float_scope.
Notation "x >? y" := (gt x y) : float_scope.
Notation "x >=? y" := (ge x y) : float_scope.
Delimit Scope float_scope with flt.
Local Open Scope float_scope.

Definition childAtIndex (n : DerivativeNode) (index : nat) : Expression :=
  match index with
  | O => child0 n
  | S O => child1 n
  | _ => child2 n
  end.

(** *** Degree inference *)

Section PolynomialDegree.

(** The value that stands for a degree that is not known. *)
Variable unknownDegree : Z.

(** Modelled from the spec: [ExpressionNode::polynomialDegree], the
    default of the base class, is not part of the sources; the spec
    describes what it yields here as the generic "unknown degree"
    value, as opposed to 0. *)
Definition ExpressionNode_polynomialDegree
    (n : DerivativeNode) (context : Context) (symbolName : string) : Z :=
  unknownDegree.

Definition polynomialDegree
    (n : DerivativeNode) (context : Context) (symbolName : string) : Z :=
  if (childPolynomialDegree (childAtIndex n 0) context symbolName =? 0)%Z
     && (childPolynomialDegree (childAtIndex n 1) context symbolName =? 0)%Z
     && (childPolynomialDegree (childAtIndex n 2) context symbolName =? 0)%Z
  then 0%Z
  else ExpressionNode_polynomialDegree n context symbolName.

End PolynomialDegree.

(** *** Evaluation of the function body *)

(** Modelled from the spec: [Expression::approximateWithValueForSymbol] is
    not part of the sources.  It evaluates an expression with one symbol
    temporarily bound to [x]: the binding is established for the
    evaluation and undone afterwards. *)
Definition approximateWithValueForSymbol (e : Expression) (symbol : string)
    (x : spec_float) (angleUnit : AngleUnit) : Ctx.M spec_float :=
  fun context =>
    let saved := context !! symbol in
    let bound := <[symbol := x]> context in
    let value := approximateToScalar e bound angleUnit in
    (value,
     match saved with
     | Some previous => <[symbol := previous]> bound
     | None => delete symbol bound
     end).

Variable n : DerivativeNode.
Variable angleUnit : AngleUnit.

(** The assertion that child 1 is a symbol is a requirement on the tree;
    [symbolName] gives the name of that symbol. *)
Definition approximateWithArgument (x : spec_float) : Ctx.M spec_float :=
  approximateWithValueForSymbol
    (childAtIndex n 0) (symbolName (childAtIndex n 1)) x angleUnit.

Definition growthRateAroundAbscissa (x h : spec_float) : Ctx.M spec_float :=
  let* expressionPlus := approximateWithArgument (x + h) in
  let* expressionMinus := approximateWithArgument (x - h) in
  Ctx.ret ((expressionPlus - expressionMinus) / (two w * h)).

(** *** Ridders' algorithm *)

(** [sizeof(T) == sizeof(float) ? FLT_MAX : DBL_MAX] *)
Definition maxValue : spec_float :=
  match w with Single => FLT_MAX | Double => DBL_MAX end.

(** The body of the loop on [j], for the value [fac] has when it is
    entered. *)
Definition extrapolate (j : nat) (fac : spec_float) (s : Locals) : Locals :=
  let gen := i s in
  let a1 :=
    Table.set (a s) j gen
      ((Table.get (a s) (j - 1) gen * fac - Table.get (a s) (j - 1) (gen - 1))
       / (fac - one w)) in
  let errt1 :=
    if fabs (Table.get a1 j gen - Table.get a1 (j - 1) gen)
       >? fabs (Table.get a1 j gen - Table.get a1 (j - 1) (gen - 1))
    then fabs (Table.get a1 j gen - Table.get a1 (j - 1) gen)
    else fabs (Table.get a1 j gen - Table.get a1 (j - 1) (gen - 1)) in
  if errt1 <? error s
  then {| a := a1; hh := hh s; ans := Table.get a1 j gen;
          errt := errt1; error := errt1; i := gen |}
  else {| a := a1; hh := hh s; ans := ans s;
          errt := errt1; error := error s; i := gen |}.

(** [for (int j = ...; j < 10; j++)], with [count] iterations left.
    Between two iterations [fac = k_rateStepSize*k_rateStepSize*fac]: the
    rate is a [double], so the square is a [double], [fac] is converted to
    [double] for the product, and the product is stored into the [T fac]. *)
Fixpoint loopOnOrders (count j : nat) (fac : spec_float) (s : Locals)
    : Locals :=
  match count with
  | O => s
  | S count' =>
      loopOnOrders count' (S j)
        (narrow w
           (mul Double (mul Double k_rateStepSize k_rateStepSize) fac))
        (extrapolate j fac s)
  end.

(** [for (int i = ...; i < 10; i++)], with [count] iterations left.
    [hh /= k_rateStepSize] divides by a [double]: the quotient is formed
    in double precision and stored into the [T hh].
    [T fac = k_rateStepSize*k_rateStepSize] stores a product of two
    [double]s into a [T]. *)
Fixpoint loopOnStepSizes (x : spec_float) (count : nat) (s : Locals)
    : Ctx.M Locals :=
  match count with
  | O => Ctx.ret s
  | S count' =>
      let hh1 := narrow w (div Double (hh s) k_rateStepSize) in
      let temp := x + hh1 in
      let hh2 := temp - x in
      let* a0i := growthRateAroundAbscissa x hh2 in
      let s1 := {| a := Table.set (a s) 0 (i s) a0i; hh := hh2;
                   ans := ans s; errt := errt s; error := error s;
                   i := i s |} in
      let s2 :=
        loopOnOrders 9 1
          (narrow w (mul Double k_rateStepSize k_rateStepSize)) s1 in
      if fabs (Table.get (a s2) (i s2) (i s2)
               - Table.get (a s2) (i s2 - 1) (i s2 - 1))
         >? two w * error s2
      then Ctx.ret s2
      else
        loopOnStepSizes x count'
          {| a := a s2; hh := hh s2; ans := ans s2; errt := errt s2;
             error := error s2; i := S (i s2) |}
  end.

(** The function up to its [return], with all its local variables.  The
    assertion [h != 0.0] is a debugging aid that release builds compile
    out; the embedding follows the code that comes after it. *)
Definition riddersLocals (x h : spec_float) : Ctx.M Locals :=
  let error0 := maxValue in
  let temp := x + h in
  let hh0 := temp - x in
  let a0 := Table.make (one w) in
  let* a00 := growthRateAroundAbscissa x hh0 in
  loopOnStepSizes x 9
    {| a := Table.set a0 0 0 a00; hh := hh0; ans := zero; errt := zero;
       error := error0; i := 1 |}.

(** The value returned, paired with the value left in [*error]. *)
Definition riddersApproximation (x h : spec_float)
    : Ctx.M (spec_float * spec_float) :=
  let* s := riddersLocals x h in
  Ctx.ret (ans s, error s).

(** *** The adaptive step search *)

(** [static T min] and [static T epsilon] *)
Definition min : spec_float :=
  match w with Double => DBL_MIN | Single => FLT_MIN end.
Definition epsilon : spec_float :=
  match w with Double => DBL_EPSILON | Single => FLT_EPSILON end.

(** The test made on [error] and [result], in the loop condition and
    again after the loop. *)
Definition unacceptable (error result : spec_float) : bool :=
  (fabs (error / result) >? k_maxErrorRateOnApproximation) || isnan error.

(** The [do ... while] loop; [fuel] bounds the number of iterations, and
    [None] is the answer of a loop that needs more. *)
Fixpoint stepSearch (fuel : nat) (evaluationArgument h : spec_float)
    : Ctx.M (option (spec_float * spec_float)) :=
  match fuel with
  | O => Ctx.ret None
  | S fuel' =>
      let* '(result, error) := riddersApproximation evaluationArgument h in
      let h1 := div10 w h in
      if unacceptable error result && (h1 >=? epsilon)
      then stepSearch fuel' evaluationArgument h1
      else Ctx.ret (Some (result, error))
  end.

Definition templatedApproximate (fuel : nat) : Ctx.M (option Evaluation) :=
  let* evaluationArgument :=
    Ctx.read (fun context =>
                approximateToScalar (childAtIndex n 2) context angleUnit) in
  let* functionValue := approximateWithArgument evaluationArgument in
  if isnan evaluationArgument || isnan functionValue
  then Ctx.ret (Some Undefined)
  else
    let* found := stepSearch fuel evaluationArgument k_minInitialRate in
    match found with
    | None => Ctx.ret None
    | Some (result, error) =>
        if unacceptable error result
        then Ctx.ret (Some Undefined)
        else if fabs error <? min
        then Ctx.ret (Some (Complex result))
        else
          let error1 :=
            pow (ten w) (floor (log10 (fabs error)) + two w) in
          Ctx.ret (Some (Complex (round (result / error1) * error1)))
    end.

End Derivative.

(** ** The subscripts of the table, checked

    The loops of [riddersApproximation] once more, with every subscript
    computed as the integer the code computes and checked against the
    bounds of [T a[10][10]] before the cell is read or written: an access
    outside of the array yields [None]. *)

Module Checked.

Definition inBounds (r c : Z) : bool :=
  (0 <=? r) && (r <? 10) && (0 <=? c) && (c <? 10).

Definition get (a : Table.t) (r c : Z) : option spec_float :=
  if inBounds r c then Some (Table.get a (Z.to_nat r) (Z.to_nat c))
  else None.

Definition set (a : Table.t) (r c : Z) (v : spec_float) : option Table.t :=
  if inBounds r c then Some (Table.set a (Z.to_nat r) (Z.to_nat c) v)
  else None.

Section Ridders.

Context `{FW : Framework} `{KS : Constants}.
Variable w : Scalar.Width.
Variable n : DerivativeNode.
Variable angleUnit : AngleUnit.

Import Scalar.

(** The body of the loop on [j]. *)
Definition extrapolate (j : nat) (fac : spec_float) (s : Locals)
    : option Locals :=
  let row := Z.of_nat j in
  let gen := Z.of_nat (i s) in
  upper ← get (a s) (row - 1) gen;
  previous ← get (a s) (row - 1) (gen - 1);
  a1 ← set (a s) row gen
         (div w (sub w (mul w upper fac) previous) (sub w fac (one w)));
  entry ← get a1 row gen;
  upper1 ← get a1 (row - 1) gen;
  previous1 ← get a1 (row - 1) (gen - 1);
  let errt1 :=
    if gt (fabs (sub w entry upper1)) (fabs (sub w entry previous1))
    then fabs (sub w entry upper1)
    else fabs (sub w entry previous1) in
  if lt errt1 (error s)
  then
    entry1 ← get a1 row gen;
    Some {| a := a1; hh := hh s; ans := entry1; errt := errt1;
            error := errt1; i := i s |}
  else Some {| a := a1; hh := hh s; ans := ans s; errt := errt1;
               error := error s; i := i s |}.

Fixpoint loopOnOrders (count j : nat) (fac : spec_float) (s : Locals)
    : option Locals :=
  match count with
  | O => Some s
  | S count' =>
      s1 ← extrapolate j fac s;
      loopOnOrders count' (S j)
        (narrow w
           (mul Double (mul Double k_rateStepSize k_rateStepSize) fac))
        s1
  end.

Fixpoint loopOnStepSizes (x : spec_float) (count : nat) (s : Locals)
    : Ctx.M (option Locals) :=
  match count with
  | O => Ctx.ret (Some s)
  | S count' =>
      let gen := Z.of_nat (i s) in
      let hh1 := narrow w (div Double (hh s) k_rateStepSize) in
      let temp := add w x hh1 in
      let hh2 := sub w temp x in
      let* a0i := growthRateAroundAbscissa w n angleUnit x hh2 in
      match
        a1 ← set (a s) 0 gen a0i;
        s2 ← loopOnOrders 9 1
               (narrow w (mul Double k_rateStepSize k_rateStepSize))
               {| a := a1; hh := hh2; ans := ans s; errt := errt s;
                  error := error s; i := i s |};
        diagonal ← get (a s2) gen gen;
        diagonal1 ← get (a s2) (gen - 1) (gen - 1);
        Some (s2, diagonal, diagonal1)
      with
      | None => Ctx.ret None
      | Some (s2, diagonal, diagonal1) =>
          if gt (fabs (sub w diagonal diagonal1))
                (mul w (two w) (error s2))
          then Ctx.ret (Some s2)
          else
            loopOnStepSizes x count'
              {| a := a s2; hh := hh s2; ans := ans s2; errt := errt s2;
                 error := error s2; i := S (i s2) |}
      end
  end.

Definition riddersLocals (x h : spec_float) : Ctx.M (option Locals) :=
  let error0 := maxValue w in
  let temp := add w x h in
  let hh0 := sub w temp x in
  let a0 := Table.make (one w) in
  let* a00 := growthRateAroundAbscissa w n angleUnit x hh0 in
  match set a0 0 0 a00 with
  | None => Ctx.ret None
  | Some a1 =>
      loopOnStepSizes x 9
        {| a := a1; hh := hh0; ans := zero; errt := zero;
           error := error0; i := 1 |}
  end.

End Ridders.

End Checked.

(** ** Notions used to state the properties *)

Section Notions.

Context `{KS : Constants}.
Variable w : Scalar.Width.

Import Scalar.

(** The Richardson combination of the entry [upper] of the current
    column and of the entry [previous] of the column before, with weight
    [fac]. *)
Definition richardson (upper previous fac : spec_float) : spec_float :=
  div w (sub w (mul w upper fac) previous) (sub w fac (one w)).

(** [k_rateStepSize^(2j)] for [j >= 1], in the arithmetic of the code:
    the squared rate, a [double], rounded to [T] for [j = 1], and for the
    next [j] the product in double precision of the squared rate and of
    the value for [j - 1], rounded to [T]. *)
Fixpoint ratePower (j : nat) : spec_float :=
  match j with
  | O => one w
  | S O => narrow w (mul Double k_rateStepSize k_rateStepSize)
  | S j' =>
      narrow w
        (mul Double (mul Double k_rateStepSize k_rateStepSize) (ratePower j'))
  end.

(** The discrepancy between the entry [a[j][c]] and the two entries it
    was combined from. *)
Definition discrepancy (a : Table.t) (j c : nat) : spec_float :=
  if gt (fabs (sub w (Table.get a j c) (Table.get a (j - 1) c)))
        (fabs (sub w (Table.get a j c) (Table.get a (j - 1) (c - 1))))
  then fabs (sub w (Table.get a j c) (Table.get a (j - 1) c))
  else fabs (sub w (Table.get a j c) (Table.get a (j - 1) (c - 1))).

(** The last generation of step sizes whose column was filled. *)
Definition lastGeneration (s : Locals) : nat := Nat.min (i s) 9.

(** The step [h] of the adaptive search after [n] divisions by ten. *)
Definition decimated (n : nat) : spec_float :=
  Nat.iter n (div10 w) k_minInitialRate.

(** The scalar [h] is not plus infinity and, when it is finite and
    positive, it is below [2^K]. *)
Definition sizeBelow (K : Z) (h : spec_float) : Prop :=
  match h with
  | S754_infinity false => False
  | S754_finite false m e => Zdigits2 (Zpos m) + e <= K
  | _ => True
  end.

(** Moreover the exponent of [h] is at most the one that the format
    gives to the numbers below [2^K]. *)
Definition magnitudeBelow (K : Z) (h : spec_float) : Prop :=
  match h with
  | S754_infinity false => False
  | S754_finite false m e =>
      Zdigits2 (Zpos m) + e <= K /\ e <= fexp (prec w) (emax w) K
  | _ => True
  end.

(** A number of divisions by ten that brings any finite step of the
    format below [epsilon]. *)
Definition searchBound : nat :=
  match w with Single => 151 | Double => 1076 end.

(** The step [hh] used by generation [g] of one run of Ridders'
    algorithm started with the step [h] at the abscissa [x]. *)
Fixpoint stepSize (x h : spec_float) (g : nat) : spec_float :=
  match g with
  | O => sub w (add w x h) x
  | S g' =>
      sub w
        (add w x (narrow w (div Double (stepSize x h g') k_rateStepSize))) x
  end.

End Notions.

Section Progress.

Context `{FW : Framework} `{KS : Constants}.
Variable w : Scalar.Width.
Variable n : DerivativeNode.
Variable angleUnit : AngleUnit.

Import Scalar.

(** The pairs (order [r], generation [c]) whose entry has been computed
    when the loop on orders of generation [g] reaches the order [j]. *)
Definition processed (g j r c : nat) : Prop :=
  (1 <= r <= 9)%nat /\ ((1 <= c < g)%nat \/ (c = g /\ r < j)%nat).

(** The pairs whose entry has been computed once the generations 1 to
    [g] are complete. *)
Definition computed (g r c : nat) : Prop :=
  (1 <= r <= 9)%nat /\ (1 <= c <= g)%nat.

(** [ans] and [error] hold the best entry among the pairs [P]: no pair
    has a discrepancy below [error], and either nothing was recorded
    yet or [error] is below its initial value and is the discrepancy of
    the pair whose entry is [ans]. *)
Definition best (P : nat -> nat -> Prop) (s : Locals) : Prop :=
  (forall r c, P r c -> lt (discrepancy w (a s) r c) (error s) = false) /\
  ((error s = maxValue w /\ ans s = zero) \/
   (lt (error s) (maxValue w) = true /\
    exists r c, P r c /\ error s = discrepancy w (a s) r c /\
                ans s = Table.get (a s) r c)).

(** The columns 1 to [g] hold Richardson combinations in all their rows
    from 1 to 9. *)
Definition filled (g : nat) (a : Table.t) : Prop :=
  forall r c, (1 <= r <= 9)%nat -> (1 <= c <= g)%nat ->
    Table.get a r c
    = richardson w (Table.get a (r - 1) c) (Table.get a (r - 1) (c - 1))
        (ratePower w r).

(** The cells that still hold the 1 they were initialized with: those of
    column 0 below row 0, and the columns after [g]. *)
Definition untouched (g : nat) (a : Table.t) : Prop :=
  forall r c, (r <= 9)%nat -> (c <= 9)%nat ->
    (c = 0 /\ 1 <= r)%nat \/ (g < c)%nat ->
    Table.get a r c = one w.

(** The locals when the loop on orders of a generation starts: the step
    has become [h'] and the growth rate [a0i] was stored in row 0. *)
Definition beginGeneration (s : Locals) (h' a0i : spec_float) : Locals :=
  {| a := Table.set (a s) 0 (i s) a0i; hh := h'; ans := ans s;
     errt := errt s; error := error s; i := i s |}.

(** The locals when the counter of generations is set to [g]. *)
Definition atGeneration (s : Locals) (g : nat) : Locals :=
  {| a := a s; hh := hh s; ans := ans s; errt := errt s;
     error := error s; i := g |}.

(** The step of a generation, from the step of the one before. *)
Definition nextStep (x hh : spec_float) : spec_float :=
  sub w (add w x (narrow w (div Double hh k_rateStepSize))) x.

(** The growth rate, evaluated in the context [ctx]. *)
Definition growthRate (ctx : Context) (x h : spec_float) : spec_float :=
  fst (growthRateAroundAbscissa w n angleUnit x h ctx).

(** One generation: the column of the table is filled and the best
    entry updated. *)
Definition generation (ctx : Context) (x : spec_float) (s : Locals)
    : Locals :=
  loopOnOrders w 9 1 (ratePower w 1)
    (beginGeneration s (nextStep x (hh s))
       (growthRate ctx x (nextStep x (hh s)))).

(** The test that leaves the loop on step sizes. *)
Definition diverges (s : Locals) : bool :=
  gt (fabs (sub w (Table.get (a s) (i s) (i s))
                  (Table.get (a s) (i s - 1) (i s - 1))))
     (mul w (two w) (error s)).

(** The result and the error of the attempt number [m] of the adaptive
    search, made with the initial step divided [m] times by ten. *)
Definition attempt (ctx : Context) (x : spec_float) (m : nat)
    : spec_float * spec_float :=
  fst (riddersApproximation w n angleUnit x (decimated w m) ctx).

(** The condition of the [do ... while] loop after the attempt number
    [m]. *)
Definition retry (ctx : Context) (x : spec_float) (m : nat) : bool :=
  unacceptable w (snd (attempt ctx x m)) (fst (attempt ctx x m))
  && ge (decimated w (S m)) (epsilon w).

End Progress.

(** ** A small framework to run the node on *)

Module Sample.

Import Scalar.

Inductive expr :=
| Number (v : spec_float)
| Symbol (name : string)
| Multiplication (e1 e2 : expr).

Fixpoint degree (e : expr) (symbol : string) : Z :=
  match e with
  | Number _ => 0
  | Symbol name => if String.eqb name symbol then 1 else 0
  | Multiplication e1 e2 => degree e1 symbol + degree e2 symbol
  end.

Definition name (e : expr) : string :=
  match e with Symbol name => name | _ => EmptyString end.

(** Stand-ins for the functions of [<cmath>]; none of the properties
    depends on what these compute. *)
Definition libm : Libm := {|
  pow x y := x;
  floor x := x;
  log10 x := x;
  round x := x;
|}.

Definition x : string := "x".

Section Width.

Variable w : Width.

Fixpoint approximate (e : expr) (context : Context) : spec_float :=
  match e with
  | Number v => v
  | Symbol name =>
      match context !! name with Some v => v | None => nan end
  | Multiplication e1 e2 =>
      mul w (approximate e1 context) (approximate e2 context)
  end.

Definition framework : Framework := {|
  Expression := expr;
  AngleUnit := unit;
  approximateToScalar e context _ := approximate e context;
  childPolynomialDegree e _ symbol := degree e symbol;
  symbolName := name;
|}.

(** The decimal [num/den], rounded to the width [w]. *)
Definition decimal (num den : Z) : spec_float :=
  div w (ofZ w num) (ofZ w den).

Definition constants : Constants := {|
  k_minInitialRate := decimal 1 100;
  k_rateStepSize := decimal 14 10;
  k_maxErrorRateOnApproximation := decimal 1 1000;
|}.

(** The same constants, but for an initial step that is infinite. *)
Definition constantsInfiniteStep : Constants := {|
  k_minInitialRate := pinf;
  k_rateStepSize := decimal 14 10;
  k_maxErrorRateOnApproximation := decimal 1 1000;
|}.

Definition node (body symbol point : expr) : @DerivativeNode framework :=
  @Build_DerivativeNode framework body symbol point.

(** diff(x*x*x, x, 2) *)
Definition cube : @DerivativeNode framework :=
  node (Multiplication (Multiplication (Symbol x) (Symbol x)) (Symbol x))
    (Symbol x) (Number (ofZ w 2)).

(** diff(x*inf, x, 2): the body is infinite at 2, and its growth rate
    is not a number for any step. *)
Definition steep : @DerivativeNode framework :=
  node (Multiplication (Symbol x) (Number pinf))
    (Symbol x) (Number (ofZ w 2)).

(** diff(x*nan, x, 2): the body is not a number anywhere. *)
Definition nowhere : @DerivativeNode framework :=
  node (Multiplication (Symbol x) (Number nan))
    (Symbol x) (Number (ofZ w 2)).

(** diff(x*x*x, x, 2^60): the evaluation point absorbs any step below
    64. *)
Definition far : @DerivativeNode framework :=
  node (Multiplication (Multiplication (Symbol x) (Symbol x)) (Symbol x))
    (Symbol x) (Number (ofZ w (2 ^ 60))).

(** diff(5, x, 2): the body does not depend on the symbol. *)
Definition flat : @DerivativeNode framework :=
  node (Number (ofZ w 5)) (Symbol x) (Number (ofZ w 2)).

(** diff(x*x, x, 0): the body is even and the derivative is taken at
    zero. *)
Definition even : @DerivativeNode framework :=
  node (Multiplication (Symbol x) (Symbol x)) (Symbol x) (Number (ofZ w 0)).

End Width.

(** The constants for [T = float]: the rate keeps the [double] value of
    1.4, the other two are rounded to [float]. *)
Definition constantsFloat : Constants := {|
  k_minInitialRate := decimal Single 1 100;
  k_rateStepSize := decimal Double 14 10;
  k_maxErrorRateOnApproximation := decimal Single 1 1000;
|}.

End Sample.

(** ** Shapes of scalars *)

Module Shape.

(** Plus or minus zero. *)
Definition isZero (v : spec_float) : bool :=
  match v with S754_zero _ => true | _ => false end.

(** A finite number other than zero. *)
Definition isFinite (v : spec_float) : bool :=
  match v with S754_finite _ _ _ => true | _ => false end.

(** Plus zero or a positive finite number. *)
Definition finiteNonnegative (v : spec_float) : bool :=
  match v with
  | S754_zero false | S754_finite false _ _ => true
  | _ => false
  end.

(** A step that carries no information: zero or not a number. *)
Definition degenerate (v : spec_float) : bool :=
  isZero v || Scalar.isnan v.

(** The abscissa [x] absorbs the step [h] and the next [count - 1] steps,
    each a tenth of the one before: [(x + h) - x] carries no
    information. *)
Fixpoint absorbs (w : Scalar.Width) (x h : spec_float) (count : nat) : bool :=
  match count with
  | O => true
  | S c =>
      degenerate (Scalar.sub w (Scalar.add w x h) x)
      && absorbs w x (Scalar.div10 w h) c
  end.

End Shape.

(** * Properties *)

(** ** Floating-point comparisons and not-a-number *)

Module ScalarFacts.

Import Scalar.

Lemma compare_refl x : SFcompare x x = Some Eq \/ SFcompare x x = None.
Proof.
  destruct x as [s|s| |s m e]; simpl; auto; left.
  - by destruct s.
  - rewrite Z.compare_refl.
    change (Pos.compare_cont Eq m m) with (Pos.compare m m).
    rewrite Pos.compare_refl. by destruct s.
Qed.

Lemma lt_irrefl x : lt x x = false.
Proof.
  unfold lt, SFltb. by destruct (compare_refl x) as [-> | ->].
Qed.

Lemma compare_Lt_trans x y z :
  SFcompare x y = Some Lt -> SFcompare y z = Some Lt ->
  SFcompare x z = Some Lt.
Proof.
  destruct x as [sx|sx| |sx mx ex], y as [sy|sy| |sy my ey],
    z as [sz|sz| |sz mz ez]; simpl;
    try destruct sx; try destruct sy; try destruct sz;
    try congruence.
  - change (Pos.compare_cont Eq) with Pos.compare.
    destruct (Z.compare_spec ex ey), (Z.compare_spec ey ez),
      (Z.compare_spec ex ez); subst; try lia; try congruence.
    destruct (Pos.compare_spec mx my), (Pos.compare_spec my mz),
      (Pos.compare_spec mx mz); subst; simpl; try lia; congruence.
  - change (Pos.compare_cont Eq) with Pos.compare.
    destruct (Z.compare_spec ex ey), (Z.compare_spec ey ez),
      (Z.compare_spec ex ez); subst; try lia; try congruence.
    destruct (Pos.compare_spec mx my), (Pos.compare_spec my mz),
      (Pos.compare_spec mx mz); subst; simpl; try lia; congruence.
Qed.

Lemma lt_trans x y z : lt x y = true -> lt y z = true -> lt x z = true.
Proof.
  unfold lt, SFltb. intros Hxy Hyz.
  destruct (SFcompare x y) as [[]|] eqn:Exy; try discriminate.
  destruct (SFcompare y z) as [[]|] eqn:Eyz; try discriminate.
  by rewrite (compare_Lt_trans _ _ _ Exy Eyz).
Qed.

Lemma sub_nan_l w y : sub w nan y = nan.
Proof. reflexivity. Qed.
Lemma mul_nan_l w y : mul w nan y = nan.
Proof. reflexivity. Qed.
Lemma div_nan_l w y : div w nan y = nan.
Proof. reflexivity. Qed.
Lemma lt_nan_l y : lt nan y = false.
Proof. reflexivity. Qed.
Lemma lt_nan_r x : lt x nan = false.
Proof. by destruct x. Qed.

End ScalarFacts.

(** ** Rounding to a binary format

    Bounds on the results of the rounding functions of the standard
    library's specification of floating-point numbers, with [prec] bits of
    precision and exponents up to [emax]. *)

Module Rounding.

Section Generic.

Variables prec emax : Z.
Hypothesis prec_pos : 0 < prec.

Local Abbreviation fexp := (fexp prec emax).
Local Abbreviation emin := (emin prec emax).

Lemma fexp_mono z z' : z <= z' -> fexp z <= fexp z'.
Proof. unfold SpecFloat.fexp. lia. Qed.

Lemma fexp_emin z : emin <= fexp z.
Proof. unfold SpecFloat.fexp. lia. Qed.

Lemma fexp_small z : z <= fexp z -> fexp z = emin.
Proof. unfold SpecFloat.fexp. lia. Qed.

Lemma digits2_size p : digits2_pos p = Pos.size p.
Proof. induction p as [p IH|p IH|]; simpl; congruence. Qed.

Lemma Zdigits2_log2 m : 0 < m -> Zdigits2 m = Z.log2 m + 1.
Proof.
  destruct m as [|p|p]; try lia. intros _. simpl. rewrite digits2_size.
  destruct p; simpl; lia.
Qed.

Lemma Zdigits2_nonneg m : 0 <= Zdigits2 m.
Proof. destruct m; simpl; lia. Qed.

(** [m] has at most [k] digits when it is below [2^k]. *)
Lemma Zdigits2_le m k : 0 <= m -> 0 <= k -> m < 2 ^ k -> Zdigits2 m <= k.
Proof.
  intros Hm Hk Hlt. destruct (Z.eq_dec m 0) as [->|Hne]; [simpl; lia|].
  rewrite Zdigits2_log2 by lia.
  assert (Z.log2 m < k) by (apply Z.log2_lt_pow2; lia). lia.
Qed.

Lemma Zdigits2_lt_pow m : 0 <= m -> m < 2 ^ Zdigits2 m.
Proof.
  intros Hm. destruct (Z.eq_dec m 0) as [->|Hne]; [simpl; lia|].
  rewrite Zdigits2_log2 by lia.
  apply Z.log2_spec. lia.
Qed.

Lemma Zdigits2_ge_pow m : 0 < m -> 2 ^ (Zdigits2 m - 1) <= m.
Proof.
  intros Hm. rewrite Zdigits2_log2 by lia.
  replace (Z.log2 m + 1 - 1) with (Z.log2 m) by lia.
  apply Z.log2_spec. lia.
Qed.

(** Dropping [n] low bits drops [n] digits. *)
Lemma div_pow2_lt m n t :
  0 <= m -> 0 <= n -> 0 <= t -> m < 2 ^ (t + n) -> m / 2 ^ n < 2 ^ t.
Proof.
  intros Hm Hn Ht Hlt.
  apply Z.div_lt_upper_bound; [apply Z.pow_pos_nonneg; lia|].
  rewrite <- Z.pow_add_r by lia. by rewrite Z.add_comm.
Qed.

Lemma shr_1_m mrs : 0 <= shr_m mrs -> shr_m (shr_1 mrs) = shr_m mrs / 2.
Proof.
  destruct mrs as [m r s]. simpl. intros Hm.
  destruct m as [|[p|p|]|p]; simpl; try lia; try reflexivity.
  - rewrite Pos2Z.inj_xI. apply (Z.div_unique _ _ _ 1); lia.
  - rewrite Pos2Z.inj_xO. apply (Z.div_unique _ _ _ 0); lia.
Qed.

Lemma pow2_xI p : 2 ^ Zpos p~1 = 2 * 2 ^ Zpos p * 2 ^ Zpos p.
Proof.
  rewrite Pos2Z.inj_xI.
  replace (2 * Zpos p + 1) with (1 + Zpos p + Zpos p) by lia.
  rewrite !Z.pow_add_r by lia. reflexivity.
Qed.

Lemma pow2_xO p : 2 ^ Zpos p~0 = 2 ^ Zpos p * 2 ^ Zpos p.
Proof.
  rewrite <- Z.pow_add_r by lia. f_equal. lia.
Qed.

Lemma shr_iter_m p : forall mrs,
  0 <= shr_m mrs ->
  shr_m (SpecFloat.iter_pos shr_1 p mrs) = shr_m mrs / 2 ^ Zpos p.
Proof.
  assert (Hpow : forall q, 0 < 2 ^ Zpos q)
    by (intros q; apply Z.pow_pos_nonneg; lia).
  induction p as [p IH|p IH|]; intros mrs Hm; simpl SpecFloat.iter_pos.
  - assert (H1 : 0 <= shr_m (shr_1 mrs))
      by (rewrite shr_1_m by done; apply Z.div_pos; lia).
    assert (H2 : 0 <= shr_m (SpecFloat.iter_pos shr_1 p (shr_1 mrs)))
      by (rewrite IH by done; apply Z.div_pos; [done|apply Hpow]).
    rewrite IH, IH, shr_1_m by done. rewrite pow2_xI.
    pose proof (Hpow p).
    rewrite !Z.div_div by lia. f_equal. lia.
  - assert (H2 : 0 <= shr_m (SpecFloat.iter_pos shr_1 p mrs))
      by (rewrite IH by done; apply Z.div_pos; [done|apply Hpow]).
    rewrite IH, IH by done. rewrite pow2_xO.
    pose proof (Hpow p).
    rewrite !Z.div_div by lia. reflexivity.
  - rewrite shr_1_m by done. reflexivity.
Qed.

Lemma shr_record_of_loc_m m l : shr_m (shr_record_of_loc m l) = m.
Proof. by destruct l as [|[]]. Qed.

(** The mantissa and the exponent after [shr_fexp]. *)
Lemma shr_fexp_spec m e l :
  0 <= m ->
  let n := fexp (Zdigits2 m + e) - e in
  0 <= shr_m (fst (shr_fexp prec emax m e l)) /\
  ((0 < n /\ shr_m (fst (shr_fexp prec emax m e l)) = m / 2 ^ n /\
    snd (shr_fexp prec emax m e l) = e + n) \/
   (n <= 0 /\ shr_m (fst (shr_fexp prec emax m e l)) = m /\
    snd (shr_fexp prec emax m e l) = e)).
Proof.
  intros Hm n. unfold shr_fexp, shr. fold n.
  destruct n as [|p|p] eqn:E; simpl fst; simpl snd.
  - rewrite shr_record_of_loc_m. split; [done|right]. lia.
  - rewrite shr_iter_m by (by rewrite shr_record_of_loc_m).
    rewrite shr_record_of_loc_m.
    split; [apply Z.div_pos; [done|apply Z.pow_pos_nonneg; lia]|left]. lia.
  - rewrite shr_record_of_loc_m. split; [done|right]. lia.
Qed.

Lemma round_nearest_even_bounds m l :
  m <= round_nearest_even m l <= m + 1.
Proof.
  unfold round_nearest_even. destruct l as [|[]]; try lia.
  destruct (Z.even m); lia.
Qed.

(** What [binary_round_aux] returns for a mantissa [mx >= 0] that has not
    too few digits for its exponent: the sign is kept, and a finite result
    has its magnitude and its exponent bounded by those of the next binade
    above the input. *)
Lemma binary_round_aux_bound sx mx ex lx :
  0 <= mx -> ex <= fexp (Zdigits2 mx + ex) ->
  let B := Z.max (Zdigits2 mx + ex) emin + 1 in
  match binary_round_aux prec emax sx mx ex lx with
  | S754_zero s => s = sx
  | S754_infinity s => s = sx /\ emax - prec < fexp B
  | S754_nan => False
  | S754_finite s m e => s = sx /\ Zdigits2 (Zpos m) + e <= B /\ e <= fexp B
  end.
Proof.
  intros Hmx Hex B. unfold binary_round_aux.
  pose proof (shr_fexp_spec mx ex lx Hmx) as (Hm1 & Hcase1).
  destruct (shr_fexp prec emax mx ex lx) as [mrs1 e1].
  cbn [fst snd] in Hm1, Hcase1.
  set (d := Zdigits2 mx) in *. set (n1 := fexp (d + ex) - ex) in *.
  assert (Hd : 0 <= d) by apply Zdigits2_nonneg.
  assert (Hn1 : 0 <= n1) by (unfold n1; lia).
  assert (He1 : e1 = fexp (d + ex)) by (unfold n1 in *; lia).
  assert (Hm1' : shr_m mrs1 = mx / 2 ^ n1).
  { destruct Hcase1 as [(_ & -> & _) | (Hle & -> & _)]; [done|].
    replace n1 with 0 by lia. by rewrite Z.div_1_r. }
  set (t := Z.max (d - n1) 0).
  assert (Hlt1 : shr_m mrs1 < 2 ^ t).
  { rewrite Hm1'. apply div_pow2_lt; try lia.
    apply Z.lt_le_trans with (2 ^ d); [apply Zdigits2_lt_pow; lia|].
    apply Z.pow_le_mono_r; lia. }
  pose proof (round_nearest_even_bounds (shr_m mrs1) (loc_of_shr_record mrs1))
    as Hround.
  set (m2 := round_nearest_even (shr_m mrs1) (loc_of_shr_record mrs1)) in *.
  assert (Hm2 : 0 <= m2) by lia.
  assert (Hd2 : Zdigits2 m2 <= t + 1).
  { apply Zdigits2_le; try lia.
    rewrite Z.pow_add_r, Z.pow_1_r by lia. lia. }
  assert (Hte : t + e1 <= Z.max (d + ex) emin).
  { rewrite He1. unfold t, n1, SpecFloat.fexp. lia. }
  pose proof (shr_fexp_spec m2 e1 loc_Exact Hm2) as (Hm3 & Hcase2).
  destruct (shr_fexp prec emax m2 e1 loc_Exact) as [mrs3 e3].
  cbn [fst snd] in Hm3, Hcase2.
  set (d2 := Zdigits2 m2) in *. set (n2 := fexp (d2 + e1) - e1) in *.
  destruct (shr_m mrs3) as [|m3|m3] eqn:E3; [done| |lia].
  assert (Hbound : Zdigits2 (Zpos m3) + e3 <= B /\ e3 <= fexp B).
  { destruct Hcase2 as [(Hpos & Hdiv & ->) | (Hle & Heq & ->)].
    - assert (Hlt2 : m2 < 2 ^ d2) by (apply Zdigits2_lt_pow; lia).
      assert (Hge2 : 2 ^ n2 <= m2).
      { destruct (Z_lt_le_dec m2 (2 ^ n2)) as [Hsmall|]; [|done].
        rewrite Z.div_small in Hdiv by lia. lia. }
      assert (Hd2' : 0 <= d2) by apply Zdigits2_nonneg.
      assert (Hn2 : n2 < d2).
      { apply (Z.pow_lt_mono_r_iff 2); lia. }
      assert (Zdigits2 (Zpos m3) <= d2 - n2).
      { apply Zdigits2_le; [lia|lia|]. rewrite Hdiv.
        apply div_pow2_lt; try lia.
        by replace (d2 - n2 + n2) with d2 by lia. }
      split; [unfold B; lia|].
      replace (e1 + n2) with (fexp (d2 + e1)) by (unfold n2; lia).
      apply fexp_mono. unfold B. lia.
    - rewrite Heq. fold d2. split; [unfold B; lia|].
      rewrite He1. apply fexp_mono. unfold B. lia. }
  destruct (Z.leb_spec e3 (emax - prec)); [by split|].
  split; [done|]. lia.
Qed.

Lemma digits2_iter_xO m d :
  Zpos (digits2_pos (Pos.iter xO m d)) = Zpos (digits2_pos m) + Zpos d.
Proof.
  induction d as [|d IH] using Pos.peano_ind.
  - simpl. lia.
  - rewrite Pos.iter_succ. simpl digits2_pos. lia.
Qed.

(** Aligning a mantissa on a smaller exponent keeps the magnitude. *)
Lemma shl_align_spec mx ex ex' :
  let mz := fst (shl_align mx ex ex') in
  let ez := snd (shl_align mx ex ex') in
  ez <= ex' /\
  Zpos (digits2_pos mz) + ez = Zpos (digits2_pos mx) + ex.
Proof.
  unfold shl_align. destruct (ex' - ex) as [|d|d] eqn:E; cbn [fst snd].
  - lia.
  - lia.
  - rewrite digits2_iter_xO. lia.
Qed.

Lemma binary_round_bound sx mx ex :
  let B := Z.max (Zdigits2 (Zpos mx) + ex) emin + 1 in
  match binary_round prec emax sx mx ex with
  | S754_zero s => s = sx
  | S754_infinity s => s = sx /\ emax - prec < fexp B
  | S754_nan => False
  | S754_finite s m e => s = sx /\ Zdigits2 (Zpos m) + e <= B /\ e <= fexp B
  end.
Proof.
  intros B. unfold binary_round.
  pose proof (shl_align_spec mx ex (fexp (Zpos (digits2_pos mx) + ex)))
    as [Hez Hmag].
  destruct (shl_align mx ex _) as [mz ez]. cbn [fst snd] in Hez, Hmag.
  pose proof (binary_round_aux_bound sx (Zpos mz) ez loc_Exact) as H.
  cbn [Zdigits2] in H. rewrite Hmag in H.
  apply H; [lia|exact Hez].
Qed.

(** The quotient of two finite numbers: its magnitude is at most two
    above the difference of their magnitudes. *)
Lemma SFdiv_finite_bound sx mx ex sy my ey :
  let B :=
    Z.max (Zdigits2 (Zpos mx) + ex - (Zdigits2 (Zpos my) + ey) + 1) emin + 1 in
  match SFdiv prec emax (S754_finite sx mx ex) (S754_finite sy my ey) with
  | S754_zero s => s = xorb sx sy
  | S754_infinity s => s = xorb sx sy /\ emax - prec < fexp B
  | S754_nan => False
  | S754_finite s m e =>
      s = xorb sx sy /\ Zdigits2 (Zpos m) + e <= B /\ e <= fexp B
  end.
Proof.
  intros B. unfold SFdiv, SFdiv_core_binary.
  set (d1 := Zdigits2 (Zpos mx)) in *. set (d2 := Zdigits2 (Zpos my)) in *.
  set (e' := Z.min (fexp (d1 + ex - (d2 + ey))) (ex - ey)).
  set (s := ex - ey - e').
  assert (Hs : 0 <= s) by (unfold s, e'; lia).
  set (m' := match s with Zpos _ => Z.shiftl (Zpos mx) s | Z0 => Zpos mx
             | Zneg _ => 0 end).
  assert (Hm' : m' = Zpos mx * 2 ^ s).
  { unfold m'. destruct s as [|p|p] eqn:Es; [simpl; lia| |lia].
    apply Z.shiftl_mul_pow2. lia. }
  assert (Hq : fst (Z.div_eucl m' (Zpos my)) = m' / Zpos my) by reflexivity.
  destruct (Z.div_eucl m' (Zpos my)) as [q r]. cbn [fst] in Hq.
  assert (Hd1 : 2 ^ (d1 - 1) <= Zpos mx < 2 ^ d1)
    by (split; [apply Zdigits2_ge_pow|apply Zdigits2_lt_pow]; lia).
  assert (Hd2 : 2 ^ (d2 - 1) <= Zpos my < 2 ^ d2)
    by (split; [apply Zdigits2_ge_pow|apply Zdigits2_lt_pow]; lia).
  assert (Hd1' : 1 <= d1) by (unfold d1; simpl; lia).
  assert (Hd2' : 1 <= d2) by (unfold d2; simpl; lia).
  assert (Hpows : 0 < 2 ^ s) by (apply Z.pow_pos_nonneg; lia).
  assert (Hm'lo : 2 ^ (d1 - 1 + s) <= m').
  { rewrite Hm', Z.pow_add_r by lia. apply Z.mul_le_mono_nonneg_r; lia. }
  assert (Hm'hi : m' < 2 ^ (d1 + s)).
  { rewrite Hm', Z.pow_add_r by lia. apply Z.mul_lt_mono_pos_r; lia. }
  assert (Hq0 : 0 <= q).
  { rewrite Hq. apply Z.div_pos; lia. }
  assert (Hqm : q * Zpos my <= m' < (q + 1) * Zpos my).
  { rewrite Hq. pose proof (Z.mul_div_le m' (Zpos my) ltac:(lia)).
    pose proof (Z.mul_succ_div_gt m' (Zpos my) ltac:(lia)). lia. }
  set (D := d1 + ex - (d2 + ey)).
  assert (HD : D = d1 + s - d2 + e') by (unfold D, s; lia).
  assert (He' : e' <= fexp D) by (unfold e', D; lia).
  (* the digits of the quotient *)
  assert (Hlow : 0 < q -> D <= Zdigits2 q + e').
  { intros Hpos. rewrite HD.
    destruct (Z_lt_le_dec (d1 + s - d2 - 1) 0) as [Hk|Hk].
    - pose proof (Zdigits2_ge_pow q Hpos).
      assert (1 <= Zdigits2 q).
      { rewrite Zdigits2_log2 by done. pose proof (Z.log2_nonneg q). lia. }
      lia.
    - assert (2 ^ (d1 + s - d2 - 1) <= q).
      { rewrite Hq. apply Z.div_le_lower_bound; [lia|].
        apply Z.le_trans with (2 ^ d2 * 2 ^ (d1 + s - d2 - 1)).
        - apply Z.mul_le_mono_nonneg_r; [apply Z.pow_nonneg|]; lia.
        - rewrite <- Z.pow_add_r by lia.
          by replace (d2 + (d1 + s - d2 - 1)) with (d1 - 1 + s) by lia. }
      rewrite Zdigits2_log2 by done.
      assert (d1 + s - d2 - 1 <= Z.log2 q) by (apply Z.log2_le_pow2; lia).
      lia. }
  assert (Hzero : q = 0 -> e' <= emin).
  { intros ->.
    assert (2 ^ (d1 - 1 + s) < 2 ^ d2) by lia.
    assert (d1 - 1 + s < d2) by (apply (Z.pow_lt_mono_r_iff 2); lia).
    assert (D <= e') by lia.
    rewrite <- (fexp_small D); lia. }
  assert (Hhigh : 0 < q -> Zdigits2 q + e' <= D + 1).
  { intros Hpos. rewrite HD.
    assert (Hu : q * 2 ^ (d2 - 1) < 2 ^ (d1 + s)).
    { apply Z.le_lt_trans with (q * Zpos my); [|lia].
      apply Z.mul_le_mono_nonneg_l; lia. }
    assert (Hp : 0 < 2 ^ (d2 - 1)) by (apply Z.pow_pos_nonneg; lia).
    assert (2 ^ (d2 - 1) < 2 ^ (d1 + s)) by nia.
    assert (d2 - 1 < d1 + s) by (apply (Z.pow_lt_mono_r_iff 2); lia).
    assert (Zdigits2 q <= d1 + s - d2 + 1); [|lia].
    apply Zdigits2_le; try lia.
    apply (Z.mul_lt_mono_pos_r (2 ^ (d2 - 1))); [done|].
    rewrite <- Z.pow_add_r by lia.
    by replace (d1 + s - d2 + 1 + (d2 - 1)) with (d1 + s) by lia. }
  pose proof (binary_round_aux_bound (xorb sx sy) q e'
                (new_location (Zpos my) r) Hq0) as H.
  assert (Hcanon : e' <= fexp (Zdigits2 q + e')).
  { destruct (Z.eq_dec q 0) as [Hz|Hnz].
    - pose proof (Hzero Hz). pose proof (fexp_emin (Zdigits2 q + e')). lia.
    - apply Z.le_trans with (fexp D); [done|]. apply fexp_mono, Hlow. lia. }
  specialize (H Hcanon). cbv zeta in H.
  assert (HB : Z.max (Zdigits2 q + e') emin + 1 <= B).
  { unfold B. fold D. destruct (Z.eq_dec q 0) as [Hz|Hnz].
    - pose proof (Hzero Hz). rewrite Hz. simpl Zdigits2. lia.
    - pose proof (Hhigh ltac:(lia)). lia. }
  pose proof (fexp_mono _ _ HB) as HfB.
  destruct (binary_round_aux _ _ _ _ _ _) as [z|z| |z m e]; try done.
  - split; [tauto|lia].
  - split; [tauto|]. split; lia.
Qed.

End Generic.
End Rounding.

(** ** The step of the adaptive search under divisions by ten *)

Section Decay.

Context `{KS : Constants}.

Import Scalar.

Lemma prec_pos w : 0 < prec w.
Proof. by destruct w. Qed.

Lemma ten_double : ten Double = S754_finite false 5629499534213120 (-49).
Proof. reflexivity. Qed.

Lemma magnitudeBelow_mono w K K' h :
  K <= K' -> magnitudeBelow w K h -> magnitudeBelow w K' h.
Proof.
  intros HK. destruct h as [s|[]| |[] m e]; simpl; try done.
  intros [HM He]. split; [lia|].
  pose proof (Rounding.fexp_mono (prec w) (emax w) K K' HK). lia.
Qed.

(** A number of the format other than plus infinity is below
    [2^emax]. *)
Lemma valid_magnitudeBelow w h :
  valid_binary (prec w) (emax w) h = true -> h <> pinf ->
  magnitudeBelow w (emax w) h.
Proof.
  destruct h as [s|[]| |[] m e]; simpl; try done.
  unfold bounded, canonical_mantissa. intros H _.
  apply andb_prop in H. destruct H as [Hc Hb].
  apply Z.eqb_eq in Hc. apply Z.leb_le in Hb.
  pose proof (prec_pos w).
  unfold SpecFloat.fexp in *. lia.
Qed.

Lemma magnitudeBelow_size w K h : magnitudeBelow w K h -> sizeBelow K h.
Proof. destruct h as [s|[]| |[] m e]; simpl; tauto. Qed.

(** Dividing by ten in double precision. *)
Lemma div_ten_double_below K h :
  sizeBelow K h -> K <= emax Double ->
  magnitudeBelow Double (Z.max (K - 2) (emin 53 1024 + 1))
    (div Double h (ten Double)).
Proof.
  intros Hh HK. rewrite ten_double.
  destruct h as [s|[]| |[] m e]; try done.
  - pose proof (Rounding.SFdiv_finite_bound 53 1024 ltac:(lia)
                  true m e false 5629499534213120 (-49)) as H.
    cbv zeta in H. unfold div. cbn [prec emax].
    destruct (SFdiv 53 1024 _ _) as [s|s| |s m' e']; try done.
    + destruct H as [-> _]. done.
    + destruct H as [-> _]. done.
  - cbn [sizeBelow] in Hh.
    pose proof (Rounding.SFdiv_finite_bound 53 1024 ltac:(lia)
                  false m e false 5629499534213120 (-49)) as H.
    cbv zeta in H. unfold div. cbn [prec emax] in *.
    change (Zdigits2 (Zpos 5629499534213120)) with 53 in H.
    set (B := Z.max (Zdigits2 (Zpos m) + e - (53 + -49) + 1)
                (emin 53 1024) + 1) in H.
    set (K' := Z.max (K - 2) (emin 53 1024 + 1)).
    assert (HB : B <= K') by (unfold B, K'; lia).
    pose proof (Rounding.fexp_mono 53 1024 _ _ HB) as Hf.
    assert (HK' : fexp 53 1024 K' <= 1024 - 53).
    { unfold K', SpecFloat.fexp, SpecFloat.emin. lia. }
    clearbody B K'.
    destruct (SFdiv 53 1024 _ _) as [s|s| |s m' e']; try done.
    + destruct H as [-> H]. simpl. lia.
    + destruct H as (-> & H1 & H2).
      unfold magnitudeBelow. cbn [prec emax xorb]. lia.
Qed.

(** Storing a double into a float. *)
Lemma narrow_single_below K h :
  sizeBelow K h -> Z.max K (emin 24 128) + 1 <= emax Single ->
  magnitudeBelow Single (Z.max K (emin 24 128) + 1) (narrow Single h).
Proof.
  intros Hh HK. destruct h as [s|[]| |[] m e]; try done.
  - pose proof (Rounding.binary_round_bound 24 128 ltac:(lia) true m e) as H.
    cbv zeta in H. cbn [narrow prec emax].
    destruct (binary_round 24 128 _ _ _) as [s|s| |s m' e']; try done.
    + destruct H as [-> _]. done.
    + destruct H as [-> _]. done.
  - cbn [sizeBelow] in Hh.
    pose proof (Rounding.binary_round_bound 24 128 ltac:(lia) false m e) as H.
    cbv zeta in H. cbn [narrow prec emax] in *.
    set (B := Z.max (Zdigits2 (Zpos m) + e) (emin 24 128) + 1) in H.
    set (K' := Z.max K (emin 24 128) + 1) in *.
    assert (HB : B <= K') by (unfold B, K'; lia).
    pose proof (Rounding.fexp_mono 24 128 _ _ HB) as Hf.
    assert (HK' : fexp 24 128 K' <= 128 - 24).
    { unfold SpecFloat.fexp, SpecFloat.emin. lia. }
    clearbody B K'.
    destruct (binary_round 24 128 _ _ _) as [s|s| |s m' e']; try done.
    + destruct H as [-> H]. simpl. lia.
    + destruct H as (-> & H1 & H2).
      unfold magnitudeBelow. cbn [prec emax]. lia.
Qed.

(** One division by ten of the adaptive search takes one binary order of
    magnitude off the step, at least. *)
Lemma div10_below w K h :
  magnitudeBelow w K h -> K <= emax w ->
  magnitudeBelow w (Z.max (K - 1) (emin (prec w) (emax w) + 1)) (div10 w h).
Proof.
  intros Hh HK. apply magnitudeBelow_size in Hh.
  pose proof (div_ten_double_below K h Hh) as Hdiv.
  destruct w; unfold div10; cbn [prec emax] in *.
  - assert (HK64 : K <= 1024) by lia. specialize (Hdiv HK64).
    apply magnitudeBelow_size in Hdiv.
    pose proof (narrow_single_below _ _ Hdiv) as Hnarrow.
    cbn [emax] in Hnarrow.
    eapply magnitudeBelow_mono; [|apply Hnarrow].
    + unfold SpecFloat.emin. lia.
    + unfold SpecFloat.emin. lia.
  - eapply magnitudeBelow_mono; [|apply (Hdiv HK)]. lia.
Qed.

Lemma decimated_below w n :
  magnitudeBelow w (emax w) k_minInitialRate ->
  magnitudeBelow w
    (Z.max (emax w - Z.of_nat n) (emin (prec w) (emax w) + 1))
    (decimated w n).
Proof.
  intros H0. induction n as [|n IH].
  - eapply magnitudeBelow_mono; [|exact H0]. lia.
  - change (decimated w (S n)) with (div10 w (decimated w n)).
    eapply magnitudeBelow_mono; [|apply (div10_below w _ _ IH)].
    + lia.
    + destruct w; unfold SpecFloat.emin; cbn [prec emax]; lia.
Qed.

(** A step whose exponent is under the one of [epsilon] is not above
    or equal to [epsilon]. *)
Lemma below_epsilon w K h :
  magnitudeBelow w K h ->
  fexp (prec w) (emax w) K < 2 - 2 * prec w ->
  ge h (epsilon w) = false.
Proof.
  intros Hh HK. unfold ge, SFleb.
  destruct h as [s|[]| |[] m e]; try done; destruct w; try done.
  - cbn [magnitudeBelow prec emax] in *. destruct Hh as [_ He].
    cbn [epsilon FLT_EPSILON SFcompare].
    destruct (Z.compare_spec (-46) e); try lia; done.
  - cbn [magnitudeBelow prec emax] in *. destruct Hh as [_ He].
    cbn [epsilon DBL_EPSILON SFcompare].
    destruct (Z.compare_spec (-104) e); try lia; done.
Qed.

(** Started from a number of the format other than plus infinity, the
    step is no longer above or equal to [epsilon] after [searchBound]
    divisions by ten. *)
Lemma decimated_below_epsilon w :
  valid_binary (prec w) (emax w) k_minInitialRate = true ->
  k_minInitialRate <> pinf ->
  ge (decimated w (searchBound w)) (epsilon w) = false.
Proof.
  intros Hvalid Hfinite.
  pose proof (decimated_below w (searchBound w)
                (valid_magnitudeBelow w _ Hvalid Hfinite)) as H.
  apply (below_epsilon w _ _ H).
  destruct w; vm_compute; reflexivity.
Qed.

End Decay.

(** ** Reading and writing the table *)

Module TableFacts.

Import Table.

Lemma wf_make v : wf (make v).
Proof.
  split; [apply length_replicate|].
  apply Forall_replicate, length_replicate.
Qed.

Lemma wf_set a r c v : wf a -> wf (set a r c v).
Proof.
  intros [Hlen Hrows]. split.
  - unfold set. by rewrite length_alter.
  - apply Forall_alter; [done|]. intros row _ Hrow.
    by rewrite length_insert.
Qed.

Lemma get_set_eq a r c v :
  wf a -> (r < 10)%nat -> (c < 10)%nat -> get (set a r c v) r c = v.
Proof.
  intros [Hlen Hrows] Hr Hc. unfold get, set.
  rewrite list_lookup_alter_eq.
  destruct (a !! r) as [row|] eqn:Erow; simpl.
  - rewrite list_lookup_insert_eq; [done|].
    rewrite (Forall_lookup_1 _ _ _ _ Hrows Erow). done.
  - apply lookup_ge_None in Erow. lia.
Qed.

Lemma get_set_ne a r c v r' c' :
  r <> r' \/ c <> c' -> get (set a r c v) r' c' = get a r' c'.
Proof.
  intros Hne. unfold get, set.
  destruct (decide (r = r')) as [<-|Hr].
  - rewrite list_lookup_alter_eq.
    destruct (a !! r) as [row|]; simpl; [|done].
    rewrite list_lookup_insert_ne; [done|]. by destruct Hne.
  - by rewrite list_lookup_alter_ne.
Qed.

Lemma get_make v r c :
  (r < 10)%nat -> (c < 10)%nat -> get (make v) r c = v.
Proof.
  intros Hr Hc. unfold get, make.
  rewrite lookup_replicate_2; [|done].
  by rewrite lookup_replicate_2.
Qed.

End TableFacts.

(** ** The context is handed back unchanged *)

Module CtxFacts.

Import Ctx.

Lemma preserves_ret {A} (a : A) : preserves (ret a).
Proof. by intros ctx. Qed.

Lemma preserves_read {A} (f : Context -> A) : preserves (read f).
Proof. by intros ctx. Qed.

Lemma preserves_bind {A B} (m : M A) (k : A -> M B) :
  preserves m -> (forall a, preserves (k a)) -> preserves (bind m k).
Proof.
  intros Hm Hk ctx. unfold bind.
  specialize (Hm ctx). destruct (m ctx) as [a ctx']. simpl in Hm. subst.
  apply Hk.
Qed.

(** Running a preserving computation yields its value and the context
    it started from. *)
Lemma run_preserves {A} (m : M A) ctx :
  preserves m -> m ctx = (fst (m ctx), ctx).
Proof.
  intros Hm. specialize (Hm ctx). destruct (m ctx). simpl in *. by subst.
Qed.

Lemma run_bind {A B} (m : M A) (k : A -> M B) ctx :
  preserves m -> bind m k ctx = k (fst (m ctx)) ctx.
Proof.
  intros Hm. unfold bind. by rewrite (run_preserves m ctx Hm).
Qed.

End CtxFacts.

Section Preservation.

Context `{FW : Framework} `{KS : Constants} `{LM : Libm}.
Variable w : Scalar.Width.
Variable n : DerivativeNode.
Variable angleUnit : AngleUnit.

Import Ctx CtxFacts.

(** The temporary binding of the symbol is undone. *)
Lemma approximateWithValueForSymbol_preserves e symbol x :
  preserves (approximateWithValueForSymbol e symbol x angleUnit).
Proof.
  intros ctx. unfold approximateWithValueForSymbol. simpl.
  destruct (ctx !! symbol) as [previous|] eqn:E.
  - rewrite insert_insert_eq. by apply insert_id.
  - by apply delete_insert_id.
Qed.

Lemma approximateWithArgument_preserves x :
  preserves (approximateWithArgument n angleUnit x).
Proof. apply approximateWithValueForSymbol_preserves. Qed.

Lemma growthRateAroundAbscissa_preserves x h :
  preserves (growthRateAroundAbscissa w n angleUnit x h).
Proof.
  unfold growthRateAroundAbscissa.
  apply preserves_bind; [apply approximateWithArgument_preserves|].
  intros plus.
  apply preserves_bind; [apply approximateWithArgument_preserves|].
  intros minus. apply preserves_ret.
Qed.

Lemma loopOnStepSizes_preserves x count s :
  preserves (loopOnStepSizes w n angleUnit x count s).
Proof.
  revert s. induction count as [|count IH]; intros s.
  - apply preserves_ret.
  - cbn [loopOnStepSizes].
    apply preserves_bind; [apply growthRateAroundAbscissa_preserves|].
    intros a0i. destruct (Scalar.gt _ _); [apply preserves_ret|apply IH].
Qed.

Lemma riddersLocals_preserves x h :
  preserves (riddersLocals w n angleUnit x h).
Proof.
  unfold riddersLocals.
  apply preserves_bind; [apply growthRateAroundAbscissa_preserves|].
  intros a00. apply loopOnStepSizes_preserves.
Qed.

Lemma riddersApproximation_preserves x h :
  preserves (riddersApproximation w n angleUnit x h).
Proof.
  unfold riddersApproximation.
  apply preserves_bind; [apply riddersLocals_preserves|].
  intros s. apply preserves_ret.
Qed.

Lemma stepSearch_preserves fuel x h :
  preserves (stepSearch w n angleUnit fuel x h).
Proof.
  revert h. induction fuel as [|fuel IH]; intros h.
  - apply preserves_ret.
  - cbn [stepSearch].
    apply preserves_bind; [apply riddersApproximation_preserves|].
    intros [result error].
    destruct (_ && _); [apply IH|apply preserves_ret].
Qed.

Lemma templatedApproximate_preserves fuel :
  preserves (templatedApproximate w n angleUnit fuel).
Proof.
  unfold templatedApproximate.
  apply preserves_bind; [apply preserves_read|]. intros x.
  apply preserves_bind; [apply approximateWithArgument_preserves|].
  intros fx. destruct (_ || _); [apply preserves_ret|].
  apply preserves_bind; [apply stepSearch_preserves|].
  intros [[result error]|]; [|apply preserves_ret].
  destruct (unacceptable _ _); [apply preserves_ret|].
  destruct (Scalar.lt _ _); apply preserves_ret.
Qed.

End Preservation.

(** ** Ridders' algorithm, step by step *)

Section RiddersSteps.

Context `{FW : Framework} `{KS : Constants}.
Variable w : Scalar.Width.
Variable n : DerivativeNode.
Variable angleUnit : AngleUnit.

Import Scalar.

Lemma ratePower_S j :
  (1 <= j)%nat ->
  narrow w
    (mul Double (mul Double k_rateStepSize k_rateStepSize) (ratePower w j))
  = ratePower w (S j).
Proof. intros Hj. destruct j as [|j]; [lia|]. reflexivity. Qed.

(** For a step-size rate of 2 no rounding takes place: the weight of the
    order [j] is the scalar [4^j]. *)
Lemma ratePower_rate_two j :
  k_rateStepSize = ofZ Double 2 -> (1 <= j <= 9)%nat ->
  ratePower w j = ofZ w (4 ^ Z.of_nat j).
Proof.
  intros Hrate Hj.
  assert (H : (j = 1 \/ j = 2 \/ j = 3 \/ j = 4 \/ j = 5 \/ j = 6 \/ j = 7
               \/ j = 8 \/ j = 9)%nat) by lia.
  repeat (destruct H as [-> | H]); try subst j;
    cbn [ratePower]; rewrite Hrate; destruct w; vm_compute; reflexivity.
Qed.

Lemma extrapolate_i j fac s : i (extrapolate w j fac s) = i s.
Proof. unfold extrapolate. by destruct (lt _ _). Qed.

Lemma extrapolate_hh j fac s : hh (extrapolate w j fac s) = hh s.
Proof. unfold extrapolate. by destruct (lt _ _). Qed.

Lemma extrapolate_a j fac s :
  a (extrapolate w j fac s)
  = Table.set (a s) j (i s)
      (richardson w (Table.get (a s) (j - 1) (i s))
         (Table.get (a s) (j - 1) (i s - 1)) fac).
Proof. unfold extrapolate. by destruct (lt _ _). Qed.

Lemma extrapolate_errt j fac s :
  errt (extrapolate w j fac s)
  = discrepancy w (a (extrapolate w j fac s)) j (i s).
Proof.
  rewrite extrapolate_a. unfold extrapolate, richardson.
  by destruct (lt _ _).
Qed.

(** The pair [ans], [error] changes exactly when the new discrepancy is
    strictly below [error]. *)
Lemma extrapolate_update j fac s :
  let s1 := extrapolate w j fac s in
  if lt (errt s1) (error s)
  then error s1 = errt s1 /\ ans s1 = Table.get (a s1) j (i s)
  else error s1 = error s /\ ans s1 = ans s.
Proof.
  unfold extrapolate. cbv zeta.
  set (a1 := Table.set _ _ _ _).
  set (e1 := if gt _ _ then _ else _).
  destruct (lt e1 (error s)) eqn:E; cbn [errt error ans a]; by rewrite E.
Qed.

Lemma loopOnOrders_i count j fac s :
  i (loopOnOrders w count j fac s) = i s.
Proof.
  revert j fac s. induction count as [|count IH]; intros j fac s; [done|].
  cbn [loopOnOrders]. by rewrite IH, extrapolate_i.
Qed.

Lemma loopOnOrders_hh count j fac s :
  hh (loopOnOrders w count j fac s) = hh s.
Proof.
  revert j fac s. induction count as [|count IH]; intros j fac s; [done|].
  cbn [loopOnOrders]. by rewrite IH, extrapolate_hh.
Qed.

(** The loop on orders fills the rows [j] to 9 of the column of the
    current generation with Richardson combinations, and writes nothing
    else. *)
Lemma loopOnOrders_table count j s :
  Table.wf (a s) -> (1 <= j)%nat -> (j + count = 10)%nat ->
  (1 <= i s <= 9)%nat ->
  let s' := loopOnOrders w count j (ratePower w j) s in
  Table.wf (a s') /\
  (forall r c, c <> i s \/ (r < j)%nat ->
     Table.get (a s') r c = Table.get (a s) r c) /\
  (forall r, (j <= r <= 9)%nat ->
     Table.get (a s') r (i s)
     = richardson w (Table.get (a s') (r - 1) (i s))
         (Table.get (a s') (r - 1) (i s - 1)) (ratePower w r)).
Proof.
  revert j s. induction count as [|count IH]; intros j s Hwf Hj Hsum Hi.
  - cbn. split; [done|]. split; [done|]. intros r Hr. lia.
  - cbn [loopOnOrders]. rewrite ratePower_S by done.
    set (s1 := extrapolate w j (ratePower w j) s).
    assert (Ha1 : a s1 = Table.set (a s) j (i s)
              (richardson w (Table.get (a s) (j - 1) (i s))
                 (Table.get (a s) (j - 1) (i s - 1)) (ratePower w j)))
      by apply extrapolate_a.
    assert (Hi1 : i s1 = i s) by apply extrapolate_i.
    assert (Hwf1 : Table.wf (a s1))
      by (rewrite Ha1; by apply TableFacts.wf_set).
    destruct (IH (S j) s1 Hwf1) as (Hwf' & Hframe & Hrich);
      [lia|lia|lia|].
    rewrite Hi1 in Hframe, Hrich.
    assert (Hold : forall r c, c <> i s \/ (r < j)%nat ->
              Table.get (a s1) r c = Table.get (a s) r c).
    { intros r c Hrc. rewrite Ha1. apply TableFacts.get_set_ne. lia. }
    split; [done|]. split.
    + intros r c Hrc. rewrite Hframe by lia. by apply Hold.
    + intros r Hr. destruct (decide (r = j)) as [->|Hne].
      * rewrite !Hframe by lia.
        rewrite (Hold (j - 1)%nat (i s)) by lia.
        rewrite (Hold (j - 1)%nat (i s - 1)%nat) by lia.
        rewrite Ha1. apply TableFacts.get_set_eq; [done|lia|lia].
      * apply Hrich. lia.
Qed.

End RiddersSteps.

(** ** The best entry and the generations *)

Section RiddersGenerations.

Context `{FW : Framework} `{KS : Constants}.
Variable w : Scalar.Width.
Variable n : DerivativeNode.
Variable angleUnit : AngleUnit.

Import Scalar.

Lemma discrepancy_ext a a' r c :
  Table.get a' r c = Table.get a r c ->
  Table.get a' (r - 1) c = Table.get a (r - 1) c ->
  Table.get a' (r - 1) (c - 1) = Table.get a (r - 1) (c - 1) ->
  discrepancy w a' r c = discrepancy w a r c.
Proof. unfold discrepancy. by intros -> -> ->. Qed.

Lemma best_ext (P Q : nat -> nat -> Prop) s :
  (forall r c, P r c <-> Q r c) -> best w P s -> best w Q s.
Proof.
  intros HPQ [Hlow Hrec]. split.
  - intros r c Hrc. apply Hlow, HPQ, Hrc.
  - destruct Hrec as [Hinit | (Hlt & r & c & Hrc & Herr & Hans)];
      [by left|right].
    split; [done|]. exists r, c. split; [by apply HPQ|done].
Qed.

(** Writing a cell that no pair of [P] was computed from keeps the best
    entry among [P]. *)
Lemma best_frame (P : nat -> nat -> Prop) s s' :
  (forall r c, P r c ->
     Table.get (a s') r c = Table.get (a s) r c /\
     Table.get (a s') (r - 1) c = Table.get (a s) (r - 1) c /\
     Table.get (a s') (r - 1) (c - 1) = Table.get (a s) (r - 1) (c - 1)) ->
  error s' = error s -> ans s' = ans s ->
  best w P s -> best w P s'.
Proof.
  intros Hsame Herror Hans [Hlow Hrec]. split.
  - intros r c Hrc. destruct (Hsame r c Hrc) as (H1 & H2 & H3).
    rewrite (discrepancy_ext _ _ _ _ H1 H2 H3), Herror. by apply Hlow.
  - rewrite Herror, Hans.
    destruct Hrec as [Hinit | (Hlt & r & c & Hrc & He & Ha)];
      [by left|right].
    split; [done|]. exists r, c.
    destruct (Hsame r c Hrc) as (H1 & H2 & H3).
    by rewrite (discrepancy_ext _ _ _ _ H1 H2 H3), H1.
Qed.

Lemma extrapolate_best g j fac s :
  Table.wf (a s) -> i s = g -> (1 <= g <= 9)%nat -> (1 <= j <= 9)%nat ->
  best w (processed g j) s ->
  best w (processed g (S j)) (extrapolate w j fac s).
Proof.
  intros Hwf Hi Hg Hj Hbest.
  set (s1 := extrapolate w j fac s).
  assert (Ha1 : forall r c, r <> j \/ c <> g ->
            Table.get (a s1) r c = Table.get (a s) r c).
  { intros r c Hrc. unfold s1. rewrite extrapolate_a, Hi.
    apply TableFacts.get_set_ne. lia. }
  assert (Hsame : forall r c, processed g j r c ->
            discrepancy w (a s1) r c = discrepancy w (a s) r c /\
            Table.get (a s1) r c = Table.get (a s) r c).
  { intros r c [Hr Hc]. split; [apply discrepancy_ext|];
      apply Ha1; lia. }
  assert (Hsplit : forall r c, processed g (S j) r c ->
            processed g j r c \/ (r = j /\ c = g)).
  { unfold processed. intros r c [Hr Hc]. lia. }
  assert (Herrt : errt s1 = discrepancy w (a s1) j g).
  { unfold s1. by rewrite extrapolate_errt, Hi. }
  pose proof (extrapolate_update w j fac s) as Hup.
  cbv zeta in Hup. fold s1 in Hup. rewrite Hi in Hup.
  destruct Hbest as [Hlow Hrec].
  destruct (lt (errt s1) (error s)) eqn:Elt; destruct Hup as [He Ha].
  - split.
    + intros r c Hrc. rewrite He.
      destruct (Hsplit r c Hrc) as [Hold | [-> ->]].
      * destruct (Hsame r c Hold) as [-> _].
        destruct (lt (discrepancy w (a s) r c) (errt s1)) eqn:E; [|done].
        rewrite <- (Hlow r c Hold).
        symmetry. by apply (ScalarFacts.lt_trans _ (errt s1)).
      * rewrite <- Herrt. apply ScalarFacts.lt_irrefl.
    + right. split.
      * rewrite He.
        destruct Hrec as [[Hinit _] | [Hlt _]]; [by rewrite <- Hinit|].
        by apply (ScalarFacts.lt_trans _ (error s)).
      * exists j, g. split; [unfold processed; lia|].
        by rewrite He, Ha.
  - split.
    + intros r c Hrc. rewrite He.
      destruct (Hsplit r c Hrc) as [Hold | [-> ->]].
      * destruct (Hsame r c Hold) as [-> _]. by apply Hlow.
      * by rewrite <- Herrt.
    + rewrite He, Ha.
      destruct Hrec as [Hinit | (Hlt & r & c & Hrc & He' & Ha')];
        [by left|right].
      split; [done|]. exists r, c.
      destruct (Hsame r c Hrc) as [-> ->].
      split; [|done]. unfold processed in *. lia.
Qed.

Lemma extrapolate_wf j fac s :
  Table.wf (a s) -> Table.wf (a (extrapolate w j fac s)).
Proof. intros Hwf. rewrite extrapolate_a. by apply TableFacts.wf_set. Qed.

Lemma loopOnOrders_best count g j fac s :
  Table.wf (a s) -> i s = g -> (1 <= g <= 9)%nat ->
  (1 <= j)%nat -> (j + count = 10)%nat ->
  best w (processed g j) s ->
  best w (processed g 10) (loopOnOrders w count j fac s).
Proof.
  revert j fac s.
  induction count as [|count IH]; intros j fac s Hwf Hi Hg Hj Hsum Hbest.
  - cbn. by replace 10%nat with j by lia.
  - cbn [loopOnOrders]. apply IH; try lia.
    + by apply extrapolate_wf.
    + by rewrite extrapolate_i.
    + apply extrapolate_best; try done. lia.
Qed.

End RiddersGenerations.

Section RiddersLoop.

Context `{FW : Framework} `{KS : Constants}.
Variable w : Scalar.Width.
Variable n : DerivativeNode.
Variable angleUnit : AngleUnit.
Variable ctx : Context.
Variable x : spec_float.

Import Scalar.

Local Abbreviation run := (generation w n angleUnit ctx x).

Lemma generation_i s : i (run s) = i s.
Proof. unfold generation. by rewrite loopOnOrders_i. Qed.

Lemma generation_hh s : hh (run s) = nextStep w x (hh s).
Proof. unfold generation. by rewrite loopOnOrders_hh. Qed.

(** What a generation does to the table: row 0 of its column receives
    the growth rate, the rows 1 to 9 of its column receive Richardson
    combinations, and no other cell is written. *)
Lemma generation_table s :
  Table.wf (a s) -> (1 <= i s <= 9)%nat ->
  Table.wf (a (run s)) /\
  (forall r c, c <> i s ->
     Table.get (a (run s)) r c = Table.get (a s) r c) /\
  Table.get (a (run s)) 0 (i s)
  = growthRate w n angleUnit ctx x (nextStep w x (hh s)) /\
  (forall r, (1 <= r <= 9)%nat ->
     Table.get (a (run s)) r (i s)
     = richardson w (Table.get (a (run s)) (r - 1) (i s))
         (Table.get (a (run s)) (r - 1) (i s - 1))
         (ratePower w r)).
Proof.
  intros Hwf Hi. unfold generation.
  set (s1 := beginGeneration _ _ _).
  assert (Hwf1 : Table.wf (a s1)) by (by apply TableFacts.wf_set).
  destruct (loopOnOrders_table w 9 1 s1 Hwf1) as (Hwf' & Hframe & Hrich);
    [lia|lia|done|].
  change (i s1) with (i s) in Hframe, Hrich.
  split; [done|]. split; [|split].
  - intros r c Hc. rewrite Hframe by (by left).
    apply TableFacts.get_set_ne. lia.
  - rewrite Hframe by lia.
    apply TableFacts.get_set_eq; [done|lia|lia].
  - done.
Qed.

Lemma generation_filled s :
  Table.wf (a s) -> (1 <= i s <= 9)%nat ->
  filled w (i s - 1) (a s) -> filled w (i s) (a (run s)).
Proof.
  intros Hwf Hi Hfilled r c Hr Hc.
  destruct (generation_table s Hwf Hi) as (_ & Hframe & _ & Hrich).
  destruct (decide (c = i s)) as [->|Hne]; [by apply Hrich|].
  rewrite !Hframe by lia. apply Hfilled; lia.
Qed.

Lemma generation_untouched s :
  Table.wf (a s) -> (1 <= i s <= 9)%nat ->
  untouched w (i s - 1) (a s) -> untouched w (i s) (a (run s)).
Proof.
  intros Hwf Hi Hun r c Hr Hc Hcell.
  destruct (generation_table s Hwf Hi) as (_ & Hframe & _).
  rewrite Hframe by lia. apply Hun; lia.
Qed.

Lemma generation_best s :
  Table.wf (a s) -> (1 <= i s <= 9)%nat ->
  best w (computed (i s - 1)) s -> best w (computed (i s)) (run s).
Proof.
  intros Hwf Hi Hbest. unfold generation.
  set (s1 := beginGeneration _ _ _).
  apply (best_ext w (processed (i s) 10)).
  { unfold processed, computed. intros r c. lia. }
  apply loopOnOrders_best; try done; try lia.
  - by apply TableFacts.wf_set.
  - apply (best_frame w _ s); try done.
    + intros r c [Hr Hc].
      repeat split; apply TableFacts.get_set_ne; lia.
    + apply (best_ext w (computed (i s - 1))); [|done].
      unfold processed, computed. intros r c. lia.
Qed.

(** The loop on step sizes, one iteration at a time. *)
Lemma loopOnStepSizes_S count s :
  loopOnStepSizes w n angleUnit x (S count) s ctx
  = if diverges w (run s)
    then (run s, ctx)
    else loopOnStepSizes w n angleUnit x count
           (atGeneration (run s) (S (i (run s)))) ctx.
Proof.
  cbn [loopOnStepSizes].
  rewrite CtxFacts.run_bind by apply growthRateAroundAbscissa_preserves.
  unfold diverges, generation, beginGeneration, nextStep, growthRate,
    atGeneration.
  by destruct (gt _ _).
Qed.

(** A property [D s g] of the locals [s] and of the number [g] of
    complete generations that every generation maintains holds when the
    loop is left. *)
Lemma loopOnStepSizes_ind (D : Locals -> nat -> Prop) :
  (forall s g g', D s g -> D (atGeneration s g') g) ->
  (forall s, (1 <= i s <= 9)%nat -> D s (i s - 1)%nat ->
             D (run s) (i s)) ->
  forall count s,
    (i s + count = 10)%nat -> (1 <= i s)%nat -> D s (i s - 1)%nat ->
    let s' := fst (loopOnStepSizes w n angleUnit x count s ctx) in
    D s' (lastGeneration s').
Proof.
  intros Hat Hgen.
  induction count as [|count IH]; intros s Hsum Hi HD.
  - cbn [loopOnStepSizes fst]. unfold Ctx.ret, lastGeneration. cbn [fst].
    by replace (Nat.min (i s) 9) with (i s - 1)%nat by lia.
  - rewrite loopOnStepSizes_S.
    assert (HD2 : D (run s) (i s)) by (apply Hgen; [lia|done]).
    destruct (diverges w (run s)).
    + cbn [fst]. unfold lastGeneration. rewrite generation_i.
      by replace (Nat.min (i s) 9) with (i s) by lia.
    + apply IH; cbn [atGeneration i]; rewrite generation_i; try lia.
      replace (S (i s) - 1)%nat with (i s) by lia. by apply Hat.
Qed.

(** The generation the loop was entered with is always run. *)
Lemma loopOnStepSizes_last count s :
  (i s + count = 10)%nat -> (1 <= i s)%nat ->
  let s' := fst (loopOnStepSizes w n angleUnit x count s ctx) in
  (Nat.min (i s) 9 <= lastGeneration s' <= 9)%nat.
Proof.
  revert s. induction count as [|count IH]; intros s Hsum Hi.
  - cbn [loopOnStepSizes fst]. unfold Ctx.ret, lastGeneration. cbn [fst]. lia.
  - rewrite loopOnStepSizes_S. destruct (diverges w (run s)).
    + cbn [fst]. unfold lastGeneration. rewrite generation_i. lia.
    + specialize (IH (atGeneration (run s) (S (i (run s))))).
      cbn [atGeneration i] in IH. rewrite generation_i in *.
      cbv zeta in *. lia.
Qed.

(** When the loop is left before the last generation, the test on the
    diagonal has succeeded. *)
Lemma loopOnStepSizes_exit count s :
  (i s + count = 10)%nat -> (1 <= i s)%nat ->
  let s' := fst (loopOnStepSizes w n angleUnit x count s ctx) in
  i s' = 10%nat \/ (diverges w s' = true /\ (1 <= i s' <= 9)%nat).
Proof.
  revert s. induction count as [|count IH]; intros s Hsum Hi.
  - left. cbn [loopOnStepSizes fst]. unfold Ctx.ret. cbn [fst]. lia.
  - rewrite loopOnStepSizes_S.
    destruct (diverges w (run s)) eqn:E.
    + right. cbn [fst]. rewrite generation_i. split; [exact E|lia].
    + apply IH; cbn [atGeneration i]; rewrite generation_i; lia.
Qed.

(** The locals when the loop on step sizes is entered. *)
Lemma riddersLocals_unfold h :
  riddersLocals w n angleUnit x h ctx
  = loopOnStepSizes w n angleUnit x 9
      {| a := Table.set (Table.make (one w)) 0 0
                (growthRate w n angleUnit ctx x (stepSize w x h 0));
         hh := stepSize w x h 0; ans := zero; errt := zero;
         error := maxValue w; i := 1 |} ctx.
Proof.
  unfold riddersLocals.
  rewrite CtxFacts.run_bind by apply growthRateAroundAbscissa_preserves.
  reflexivity.
Qed.

(** What holds of the locals when Ridders' algorithm returns. *)
Lemma riddersLocals_final h :
  let s := fst (riddersLocals w n angleUnit x h ctx) in
  (1 <= lastGeneration s <= 9)%nat /\
  Table.wf (a s) /\
  filled w (lastGeneration s) (a s) /\
  untouched w (lastGeneration s) (a s) /\
  best w (computed (lastGeneration s)) s.
Proof.
  rewrite riddersLocals_unfold. set (s0 := Build_Locals _ _ _ _ _ _).
  split.
  { pose proof (loopOnStepSizes_last 9 s0) as H. cbn [s0 i] in H.
    cbv zeta in H. change (Nat.min 1 9) with 1%nat in H. by apply H. }
  apply (loopOnStepSizes_ind
           (fun s g => Table.wf (a s) /\ filled w g (a s) /\
                       untouched w g (a s) /\ best w (computed g) s)).
  - intros s g g' H. exact H.
  - intros s Hi (Hwf & Hfilled & Hun & Hbest).
    split; [by apply generation_table|].
    split; [by apply generation_filled|].
    split; [by apply generation_untouched|by apply generation_best].
  - reflexivity.
  - cbn. lia.
  - cbn [s0 i a]. change (1 - 1)%nat with 0%nat.
    split; [apply TableFacts.wf_set, TableFacts.wf_make|].
    split; [intros r c Hr Hc; lia|].
    split.
    + intros r c Hr Hc Hcell.
      rewrite TableFacts.get_set_ne by lia.
      apply TableFacts.get_make; lia.
    + split.
      * intros r c [Hr Hc]. lia.
      * by left.
Qed.

End RiddersLoop.

(** ** The extrapolation table *)

Section TableClaims.

Context `{FW : Framework} `{KS : Constants}.
Variable w : Scalar.Width.
Variable n : DerivativeNode.
Variable angleUnit : AngleUnit.

Import Scalar.

(** C1, as amended.  In every generation that is run, from 1 to the last
    one, the Richardson combinations are computed for all the orders 1
    to 9, whatever the generation: the cells above the diagonal are
    written like the others.  The cells that keep the 1 they were
    initialized with are those of column 0 below row 0 and those of the
    generations that were not run.  Cells above the diagonal are read by
    the combinations: [a[2][1]] is combined from [a[1][1]] and from
    [a[1][0]], which is 1. *)
Theorem ridders_fills_whole_columns (x h : spec_float) (ctx : Context) :
  let s := fst (riddersLocals w n angleUnit x h ctx) in
  (1 <= lastGeneration s <= 9)%nat /\
  (forall gen j, (1 <= gen <= lastGeneration s)%nat -> (1 <= j <= 9)%nat ->
     Table.get (a s) j gen
     = richardson w (Table.get (a s) (j - 1) gen)
         (Table.get (a s) (j - 1) (gen - 1)) (ratePower w j)) /\
  (forall j, (1 <= j <= 9)%nat -> Table.get (a s) j 0 = one w) /\
  (forall gen j, (lastGeneration s < gen <= 9)%nat -> (j <= 9)%nat ->
     Table.get (a s) j gen = one w) /\
  Table.get (a s) 2 1
  = richardson w (Table.get (a s) 1 1) (one w) (ratePower w 2).
Proof.
  cbv zeta.
  pose proof (riddersLocals_final w n angleUnit ctx x h) as H.
  cbv zeta in H. revert H.
  generalize (fst (riddersLocals w n angleUnit x h ctx)).
  intros s (Hlast & _ & Hfilled & Hun & _).
  split; [exact Hlast|]. split; [|split; [|split]].
  - intros gen j Hgen Hj. apply Hfilled; lia.
  - intros j Hj. apply Hun; lia.
  - intros gen j Hgen Hj. apply Hun; lia.
  - rewrite (Hfilled 2%nat 1%nat) by lia.
    change (2 - 1)%nat with 1%nat. change (1 - 1)%nat with 0%nat.
    by rewrite (Hun 1%nat 0%nat) by lia.
Qed.

(** C2.  Every entry computed for an order [j >= 1], in a generation
    [gen] that was run, is
    [(a[j-1][gen]*fac - a[j-1][gen-1]) / (fac - 1)], where [fac] is
    [k_rateStepSize^(2j)] in the arithmetic of the code.  This is the
    value the variable [fac] has when the entry is computed: the loop on
    orders is entered at the order 1 with the squared rate, formed in
    double precision and stored into [fac], and an iteration that
    computes the order [j'] with [k_rateStepSize^(2j')] hands the product
    of the squared rate and of that value, formed in double precision and
    stored into [fac], to the next one.  For a rate of 2 no product is
    rounded and [fac] is exactly [4^j]. *)
Theorem richardson_recurrence (x h : spec_float) (ctx : Context)
    (gen j : nat) :
  let s := fst (riddersLocals w n angleUnit x h ctx) in
  (1 <= gen <= lastGeneration s)%nat -> (1 <= j <= 9)%nat ->
  Table.get (a s) j gen
  = div w
      (sub w (mul w (Table.get (a s) (j - 1) gen) (ratePower w j))
             (Table.get (a s) (j - 1) (gen - 1)))
      (sub w (ratePower w j) (one w)) /\
  ratePower w 1 = narrow w (mul Double k_rateStepSize k_rateStepSize) /\
  (forall j', (1 <= j')%nat ->
     ratePower w (S j')
     = narrow w
         (mul Double (mul Double k_rateStepSize k_rateStepSize)
            (ratePower w j'))) /\
  (forall count j' s0, (1 <= j')%nat ->
     loopOnOrders w (S count) j' (ratePower w j') s0
     = loopOnOrders w count (S j') (ratePower w (S j'))
         (extrapolate w j' (ratePower w j') s0)) /\
  (k_rateStepSize = ofZ Double 2 -> ratePower w j = ofZ w (4 ^ Z.of_nat j)).
Proof.
  cbv zeta.
  pose proof (riddersLocals_final w n angleUnit ctx x h) as H.
  cbv zeta in H. revert H.
  generalize (fst (riddersLocals w n angleUnit x h ctx)).
  intros s (_ & _ & Hfilled & _) Hgen Hj.
  split; [exact (Hfilled j gen Hj Hgen)|]. split; [reflexivity|].
  split; [|split].
  - intros j' Hj'. symmetry. by apply ratePower_S.
  - intros count j' s0 Hj'. cbn [loopOnOrders].
    by rewrite ratePower_S.
  - intros Hrate. by apply ratePower_rate_two.
Qed.

(** C3, as amended.  No computed pair has a discrepancy strictly below
    the value left in [*error].  If some computed discrepancy is
    strictly below [FLT_MAX]/[DBL_MAX], the value returned is the entry
    [a[j][i]] of a computed pair and [*error] is its discrepancy;
    otherwise 0 is returned and [*error] keeps [FLT_MAX]/[DBL_MAX].  One
    step of the loop on orders changes the pair [ans], [*error] exactly
    when the discrepancy of the new entry is strictly below [*error]. *)
Theorem best_entry_tracking (x h : spec_float) (ctx : Context) :
  let s := fst (riddersLocals w n angleUnit x h ctx) in
  let pair := fst (riddersApproximation w n angleUnit x h ctx) in
  pair = (ans s, error s) /\
  (forall j gen, computed (lastGeneration s) j gen ->
     lt (discrepancy w (a s) j gen) (error s) = false) /\
  ((exists j gen, computed (lastGeneration s) j gen /\
      lt (discrepancy w (a s) j gen) (maxValue w) = true) ->
   exists j gen, computed (lastGeneration s) j gen /\
     ans s = Table.get (a s) j gen /\
     error s = discrepancy w (a s) j gen) /\
  ((forall j gen, computed (lastGeneration s) j gen ->
      lt (discrepancy w (a s) j gen) (maxValue w) = false) ->
   ans s = zero /\ error s = maxValue w) /\
  (forall j fac s0,
     let s1 := extrapolate w j fac s0 in
     errt s1 = discrepancy w (a s1) j (i s0) /\
     if lt (errt s1) (error s0)
     then error s1 = errt s1 /\ ans s1 = Table.get (a s1) j (i s0)
     else error s1 = error s0 /\ ans s1 = ans s0).
Proof.
  cbv zeta.
  assert (Hpair : fst (riddersApproximation w n angleUnit x h ctx)
                  = (ans (fst (riddersLocals w n angleUnit x h ctx)),
                     error (fst (riddersLocals w n angleUnit x h ctx)))).
  { unfold riddersApproximation.
    rewrite CtxFacts.run_bind by apply riddersLocals_preserves.
    reflexivity. }
  rewrite Hpair. clear Hpair.
  pose proof (riddersLocals_final w n angleUnit ctx x h) as H.
  cbv zeta in H. revert H.
  generalize (fst (riddersLocals w n angleUnit x h ctx)).
  intros s (_ & _ & _ & _ & Hlow & Hrec).
  split; [reflexivity|].
  split; [exact Hlow|]. split; [|split].
  - intros (j & gen & Hc & Hlt).
    destruct Hrec as [[Hinit _] | (_ & r & c & Hrc & He & Ha)].
    + rewrite <- Hinit, (Hlow j gen Hc) in Hlt. discriminate.
    + by exists r, c.
  - intros Hall.
    destruct Hrec as [[Hinit Hans] | (Hlt & r & c & Hrc & He & _)];
      [done|].
    rewrite He, (Hall r c Hrc) in Hlt. discriminate.
  - intros j fac s0. split; [apply extrapolate_errt|].
    apply extrapolate_update.
Qed.

End TableClaims.

(** *** The table claims on sample runs *)

Section TableSamples.

Import Scalar.

Local Abbreviation FW64 := (Sample.framework Double).
Local Abbreviation KS64 := (Sample.constants Double).
Local Abbreviation cubeLocals :=
  (fst (@riddersLocals FW64 KS64 Double (Sample.cube Double) tt
          (ofZ Double 2) (Sample.decimal Double 1 100) ∅)).
Local Abbreviation steepLocals :=
  (fst (@riddersLocals FW64 KS64 Double (Sample.steep Double) tt
          (ofZ Double 2) (Sample.decimal Double 1 100) ∅)).

(** C1, as stated, fails on diff(x*x*x, x, 2) with the initial step
    0.01 and the rate 1.4: the cell [a[2][1]], above the diagonal, is
    written in generation 1 and does not keep the value 1. *)
Lemma upper_triangle_is_overwritten :
  ~ (forall gen j, (1 <= gen <= 9)%nat -> (gen < j <= 9)%nat ->
       Table.get (a cubeLocals) j gen = one Double).
Proof.
  intros H. specialize (H 1%nat 2%nat ltac:(lia) ltac:(lia)).
  vm_compute in H. discriminate H.
Qed.

(** C2 on diff(x*x*x, x, 2): the entry of order 2 of generation 3. *)
Lemma richardson_recurrence_witness :
  let s := cubeLocals in
  ((1 <= 3 <= lastGeneration s)%nat /\ (1 <= 2 <= 9)%nat) /\
  Table.get (a s) 2 3
  = div Double
      (sub Double
         (mul Double (Table.get (a s) (2 - 1) 3) (@ratePower KS64 Double 2))
         (Table.get (a s) (2 - 1) (3 - 1)))
      (sub Double (@ratePower KS64 Double 2) (one Double)).
Proof.
  assert (Hlast : (1 <= 3 <= lastGeneration cubeLocals)%nat)
    by (vm_compute; lia).
  assert (Horder : (1 <= 2 <= 9)%nat) by lia.
  cbv zeta. split; [split; [exact Hlast|exact Horder]|].
  exact (proj1 (@richardson_recurrence FW64 KS64 Double (Sample.cube Double)
                  tt (ofZ Double 2) (Sample.decimal Double 1 100) ∅
                  3%nat 2%nat Hlast Horder)).
Defined.

(** For [T = float] and the rate 1.4 every product is rounded twice, to
    [double] and then to [float]: the mantissas of the weights of the
    orders 1 to 9. *)
Lemma ratePower_float :
  map (@ratePower Sample.constantsFloat Single) (seq 1 9)
  = [S754_finite false 16441672 (-23); S754_finite false 16112839 (-22);
     S754_finite false 15790582 (-21); S754_finite false 15474770 (-20);
     S754_finite false 15165275 (-19); S754_finite false 14861969 (-18);
     S754_finite false 14564730 (-17); S754_finite false 14273435 (-16);
     S754_finite false 13987966 (-15)].
Proof. vm_compute. reflexivity. Qed.

(** The run for [T = float] on diff(x*x*x, x, 2) with the step 0.01:
    the loop is left in generation 2, with the answer 12.00006103515625
    and the error 15204352 * 2^-39. *)
Lemma ridders_float :
  let s := fst (@riddersLocals (Sample.framework Single)
                  Sample.constantsFloat Single (Sample.cube Single) tt
                  (ofZ Single 2) (Sample.decimal Single 1 100) ∅) in
  i s = 2%nat /\
  ans s = S754_finite false 12582976 (-20) /\
  error s = S754_finite false 15204352 (-39) /\
  hh s = S754_finite false 10956288 (-31).
Proof. vm_compute. repeat split. Qed.

Lemma isnan_true v : isnan v = true -> v = nan.
Proof. by destruct v. Qed.

(** On diff(x*inf, x, 2) every entry of the generations 1 to 9 is not a
    number. *)
Lemma steep_cells j gen :
  (j <= 9)%nat -> (1 <= gen <= 9)%nat ->
  Table.get (a steepLocals) j gen = nan.
Proof.
  intros Hj Hgen.
  assert (Hall :
    forallb (fun j =>
      forallb (fun gen => isnan (Table.get (a steepLocals) j gen))
        (seq 1 9)) (seq 0 10) = true) by (vm_compute; reflexivity).
  rewrite forallb_forall in Hall.
  specialize (Hall j). rewrite forallb_forall in Hall.
  apply isnan_true, Hall; apply in_seq; lia.
Qed.

(** C3, as stated, fails on diff(x*inf, x, 2): all the growth rates are
    not a number, nothing is ever recorded, and the value returned, 0,
    is the entry of no computed pair. *)
Lemma best_entry_may_be_none :
  let s := steepLocals in
  ~ (exists j gen, computed (lastGeneration s) j gen /\
       ans s = Table.get (a s) j gen /\
       error s = discrepancy Double (a s) j gen).
Proof.
  cbv zeta. intros (j & gen & [Hj Hgen] & Hans & _).
  assert (Hlast : lastGeneration steepLocals = 9%nat)
    by (vm_compute; reflexivity).
  rewrite Hlast in Hgen.
  rewrite steep_cells in Hans by lia.
  vm_compute in Hans. discriminate Hans.
Qed.

End TableSamples.

(** ** Growth rates that are not numbers *)

Section NotANumber.

Context `{FW : Framework} `{KS : Constants}.
Variable w : Scalar.Width.
Variable n : DerivativeNode.
Variable angleUnit : AngleUnit.
Variable ctx : Context.
Variable x h : spec_float.

Import Scalar ScalarFacts.

Lemma richardson_nan previous fac : richardson w nan previous fac = nan.
Proof. unfold richardson. by rewrite mul_nan_l, sub_nan_l, div_nan_l. Qed.

Lemma discrepancy_nan a j gen :
  Table.get a j gen = nan -> discrepancy w a j gen = nan.
Proof.
  intros H. unfold discrepancy. rewrite H, !sub_nan_l.
  by destruct (gt _ _).
Qed.

Lemma maxValue_finite : exists m e, maxValue w = S754_finite false m e.
Proof. destruct w; eexists _, _; reflexivity. Qed.

(** The value [*error] starts with passes neither for a not-a-number
    nor for a value below itself. *)
Lemma error_not_nan s :
  best w (computed (lastGeneration s)) s -> isnan (error s) = false.
Proof.
  intros [_ [[-> _] | [Hlt _]]].
  - by destruct w.
  - by destruct (error s).
Qed.

Hypothesis growthRate_nan :
  forall g, (g <= 9)%nat ->
    growthRate w n angleUnit ctx x (stepSize w x h g) = nan.

(** All the entries of the generations that were run are not numbers,
    and the step follows [stepSize]. *)
Lemma all_nan_columns :
  let s := fst (riddersLocals w n angleUnit x h ctx) in
  hh s = stepSize w x h (lastGeneration s) /\
  forall r c, (r <= 9)%nat -> (1 <= c <= lastGeneration s)%nat ->
    Table.get (a s) r c = nan.
Proof.
  rewrite riddersLocals_unfold. set (s0 := Build_Locals _ _ _ _ _ _).
  assert (H : let s := fst (loopOnStepSizes w n angleUnit x 9 s0 ctx) in
              Table.wf (a s) /\ hh s = stepSize w x h (lastGeneration s) /\
              forall r c, (r <= 9)%nat ->
                (1 <= c <= lastGeneration s)%nat ->
                Table.get (a s) r c = nan);
    [|cbv zeta in *; tauto].
  apply (loopOnStepSizes_ind w n angleUnit ctx x
           (fun s g => Table.wf (a s) /\ hh s = stepSize w x h g /\
              forall r c, (r <= 9)%nat -> (1 <= c <= g)%nat ->
                Table.get (a s) r c = nan)).
  - intros s g g' H. exact H.
  - intros s Hi (Hwf & Hhh & Hcells).
    destruct (generation_table w n angleUnit ctx x s Hwf Hi)
      as (Hwf' & Hframe & Hrow0 & Hrich).
    assert (Hstep : nextStep w x (hh s) = stepSize w x h (i s)).
    { rewrite Hhh. destruct (i s) as [|g]; [lia|].
      replace (S g - 1)%nat with g by lia. reflexivity. }
    split; [exact Hwf'|]. split.
    + by rewrite generation_hh.
    + intros r c Hr Hc. destruct (decide (c = i s)) as [->|Hne].
      * induction r as [|r IH].
        -- rewrite Hrow0, Hstep. apply growthRate_nan. lia.
        -- rewrite Hrich by lia.
           replace (S r - 1)%nat with r by lia.
           rewrite IH by lia. apply richardson_nan.
      * rewrite Hframe by done. apply Hcells; lia.
  - reflexivity.
  - cbn. lia.
  - cbn [s0 a hh i]. change (1 - 1)%nat with 0%nat.
    split; [apply TableFacts.wf_set, TableFacts.wf_make|].
    split; [reflexivity|]. intros r c Hr Hc. lia.
Qed.

(** With growth rates that are not numbers the loop on step sizes runs
    its nine generations, and nothing is recorded. *)
Lemma all_nan_locals :
  let s := fst (riddersLocals w n angleUnit x h ctx) in
  i s = 10%nat /\ ans s = zero /\ error s = maxValue w /\
  forall r c, (r <= 9)%nat -> (1 <= c <= 9)%nat ->
    Table.get (a s) r c = nan.
Proof.
  pose proof all_nan_columns as Hcols.
  pose proof (riddersLocals_final w n angleUnit ctx x h) as Hfinal.
  assert (Hexit : let s := fst (riddersLocals w n angleUnit x h ctx) in
                  i s = 10%nat \/ (diverges w s = true /\ (1 <= i s <= 9)%nat)).
  { rewrite riddersLocals_unfold.
    apply (loopOnStepSizes_exit w n angleUnit ctx x 9); cbn; lia. }
  cbv zeta in *. revert Hcols Hfinal Hexit.
  generalize (fst (riddersLocals w n angleUnit x h ctx)).
  intros s [_ Hcells] (_ & _ & _ & _ & Hlow & Hrec) Hexit.
  assert (Hi : i s = 10%nat).
  { destruct Hexit as [Hi | [Hdiv Hi]]; [exact Hi|].
    unfold diverges in Hdiv.
    rewrite Hcells in Hdiv by (unfold lastGeneration; lia).
    rewrite sub_nan_l in Hdiv.
    change (gt (fabs nan) ?y) with (lt y nan) in Hdiv.
    rewrite lt_nan_r in Hdiv. discriminate Hdiv. }
  assert (Hlast : lastGeneration s = 9%nat)
    by (unfold lastGeneration; rewrite Hi; reflexivity).
  rewrite Hlast in *.
  split; [exact Hi|].
  destruct Hrec as [[He Ha] | (Hlt & r & c & [Hr Hc] & He & _)].
  - by repeat split.
  - rewrite He, discrepancy_nan in Hlt by (apply Hcells; lia).
    discriminate Hlt.
Qed.

End NotANumber.

Section NotANumberClaim.

Context `{FW : Framework} `{KS : Constants}.
Variable w : Scalar.Width.
Variable n : DerivativeNode.
Variable angleUnit : AngleUnit.

Import Scalar ScalarFacts.

(** C10.  If every growth rate evaluated during one run of Ridders'
    algorithm is not a number, then every discrepancy is not a number
    and compares below nothing, so that no update takes place: the
    function returns 0 and leaves in [*error] the value it wrote there
    first, [FLT_MAX]/[DBL_MAX], which is finite and is a number.  The
    caller rejects the result by the test on the relative error, the
    test [isnan(error)] being false; the threshold is assumed to be
    below infinity. *)
Theorem all_nan_run_is_rejected (x h : spec_float) (ctx : Context) :
  (forall g, (g <= 9)%nat ->
     growthRate w n angleUnit ctx x (stepSize w x h g) = nan) ->
  lt k_maxErrorRateOnApproximation pinf = true ->
  let s := fst (riddersLocals w n angleUnit x h ctx) in
  (forall j gen, computed 9 j gen ->
     discrepancy w (a s) j gen = nan /\
     forall e, lt (discrepancy w (a s) j gen) e = false) /\
  riddersApproximation w n angleUnit x h ctx = ((zero, maxValue w), ctx) /\
  (exists m e, maxValue w = S754_finite false m e) /\
  isnan (maxValue w) = false /\
  gt (fabs (div w (maxValue w) zero)) k_maxErrorRateOnApproximation = true /\
  unacceptable w (maxValue w) zero = true.
Proof.
  intros Hnan Hthreshold.
  assert (Hpair : riddersApproximation w n angleUnit x h ctx
                  = ((ans (fst (riddersLocals w n angleUnit x h ctx)),
                      error (fst (riddersLocals w n angleUnit x h ctx))),
                     ctx)).
  { unfold riddersApproximation.
    rewrite CtxFacts.run_bind by apply riddersLocals_preserves.
    reflexivity. }
  rewrite Hpair. clear Hpair.
  pose proof (all_nan_locals w n angleUnit ctx x h Hnan) as H.
  cbv zeta in *. revert H.
  generalize (fst (riddersLocals w n angleUnit x h ctx)).
  intros s (_ & Hans & Herror & Hcells).
  assert (Hmax : gt (fabs (div w (maxValue w) zero))
                   k_maxErrorRateOnApproximation = true).
  { destruct w; exact Hthreshold. }
  split; [|split; [|split; [|split; [|split]]]].
  - intros j gen [Hj Hgen].
    rewrite discrepancy_nan by (apply Hcells; lia).
    split; [reflexivity|]. intros e. apply lt_nan_l.
  - by rewrite Hans, Herror.
  - apply maxValue_finite.
  - by destruct w.
  - exact Hmax.
  - unfold unacceptable. by rewrite Hmax.
Qed.

End NotANumberClaim.

Section NotANumberSample.

Import Scalar.

Local Abbreviation FW64 := (Sample.framework Double).
Local Abbreviation KS64 := (Sample.constants Double).

(** C10 on diff(x*inf, x, 2): around 2 the growth rate of the body is
    not a number for any of the ten steps. *)
Lemma all_nan_run_is_rejected_witness :
  ((forall g, (g <= 9)%nat ->
      @growthRate FW64 Double (Sample.steep Double) tt ∅ (ofZ Double 2)
        (@stepSize KS64 Double (ofZ Double 2) (Sample.decimal Double 1 100) g)
      = nan) /\
   lt (@k_maxErrorRateOnApproximation KS64) pinf = true) /\
  @riddersApproximation FW64 KS64 Double (Sample.steep Double) tt
    (ofZ Double 2) (Sample.decimal Double 1 100) ∅
  = ((zero, DBL_MAX), ∅).
Proof.
  assert (Hnan : forall g, (g <= 9)%nat ->
      @growthRate FW64 Double (Sample.steep Double) tt ∅ (ofZ Double 2)
        (@stepSize KS64 Double (ofZ Double 2) (Sample.decimal Double 1 100) g)
      = nan).
  { intros g Hg.
    assert (Hall :
      forallb (fun g =>
        isnan (@growthRate FW64 Double (Sample.steep Double) tt ∅
                 (ofZ Double 2)
                 (@stepSize KS64 Double (ofZ Double 2)
                    (Sample.decimal Double 1 100) g)))
        (seq 0 10) = true) by (vm_compute; reflexivity).
    rewrite forallb_forall in Hall.
    apply isnan_true, Hall, in_seq. lia. }
  assert (Hthreshold : lt (@k_maxErrorRateOnApproximation KS64) pinf = true)
    by (vm_compute; reflexivity).
  split; [split; [exact Hnan|exact Hthreshold]|].
  apply (@all_nan_run_is_rejected FW64 KS64 Double (Sample.steep Double) tt
           (ofZ Double 2) (Sample.decimal Double 1 100) ∅ Hnan Hthreshold).
Defined.

End NotANumberSample.

(** ** The adaptive step search *)

Section StepSearch.

Context `{FW : Framework} `{KS : Constants} `{LM : Libm}.
Variable w : Scalar.Width.
Variable n : DerivativeNode.
Variable angleUnit : AngleUnit.
Variable ctx : Context.

Import Scalar ScalarFacts.

(** One iteration of the [do ... while] loop. *)
Lemma stepSearch_S fuel x h :
  stepSearch w n angleUnit (S fuel) x h ctx
  = let pair := fst (riddersApproximation w n angleUnit x h ctx) in
    if unacceptable w (snd pair) (fst pair) && ge (div10 w h) (epsilon w)
    then stepSearch w n angleUnit fuel x (div10 w h) ctx
    else (Some pair, ctx).
Proof.
  cbn [stepSearch].
  rewrite CtxFacts.run_bind by apply riddersApproximation_preserves.
  cbv zeta.
  destruct (fst (riddersApproximation w n angleUnit x h ctx))
    as [result error].
  cbn [fst snd]. by destruct (_ && _).
Qed.

(** The same iteration, for the attempt number [m]. *)
Lemma stepSearch_attempt fuel x m :
  stepSearch w n angleUnit (S fuel) x (decimated w m) ctx
  = if retry w n angleUnit ctx x m
    then stepSearch w n angleUnit fuel x (decimated w (S m)) ctx
    else (Some (attempt w n angleUnit ctx x m), ctx).
Proof.
  rewrite stepSearch_S. unfold retry, attempt.
  change (decimated w (S m)) with (div10 w (decimated w m)).
  reflexivity.
Qed.

(** The loop makes the attempts [m], [m + 1], ... as long as the
    condition [retry] holds, and stops with the first attempt after
    which it does not. *)
Lemma stepSearch_attempts x N : forall m fuel,
  (forall k, (k < N)%nat -> retry w n angleUnit ctx x (m + k) = true) ->
  retry w n angleUnit ctx x (m + N) = false ->
  (N < fuel)%nat ->
  stepSearch w n angleUnit fuel x (decimated w m) ctx
  = (Some (attempt w n angleUnit ctx x (m + N)), ctx).
Proof.
  induction N as [|N IH]; intros m fuel Hretry Hstop Hfuel;
    (destruct fuel as [|fuel]; [lia|]); rewrite stepSearch_attempt.
  - rewrite Nat.add_0_r in *. by rewrite Hstop.
  - pose proof (Hretry 0%nat ltac:(lia)) as H0.
    rewrite Nat.add_0_r in H0. rewrite H0.
    replace (m + S N)%nat with (S m + N)%nat in * by lia.
    apply IH; [|done|lia].
    intros k Hk. replace (S m + k)%nat with (m + S k)%nat by lia.
    apply Hretry. lia.
Qed.

(** Once the step has fallen below [epsilon] after [N] divisions, at
    most [N] attempts are made. *)
Lemma stepSearch_bounded x N : forall m fuel,
  (1 <= N)%nat -> ge (decimated w (m + N)) (epsilon w) = false ->
  (N <= fuel)%nat ->
  exists k, (k < N)%nat /\
    stepSearch w n angleUnit fuel x (decimated w m) ctx
    = (Some (attempt w n angleUnit ctx x (m + k)), ctx).
Proof.
  induction N as [|N IH]; intros m fuel HN Hbelow Hfuel; [lia|].
  destruct fuel as [|fuel]; [lia|].
  rewrite stepSearch_attempt.
  destruct (retry w n angleUnit ctx x m) eqn:Hretry.
  - destruct N as [|N].
    { unfold retry in Hretry.
      replace (m + 1)%nat with (S m) in Hbelow by lia.
      rewrite Hbelow, andb_false_r in Hretry. discriminate Hretry. }
    destruct (IH (S m) fuel) as (k & Hk & Hrun); [lia| |lia|].
    { by replace (S m + S N)%nat with (m + S (S N))%nat by lia. }
    exists (S k). split; [lia|].
    rewrite Hrun. by replace (S m + k)%nat with (m + S k)%nat by lia.
  - exists 0%nat. split; [lia|]. by rewrite Nat.add_0_r.
Qed.

(** [templatedApproximate], run in the context [ctx]. *)
Lemma templatedApproximate_run fuel :
  templatedApproximate w n angleUnit fuel ctx
  = let x := approximateToScalar (childAtIndex n 2) ctx angleUnit in
    let fx := fst (approximateWithArgument n angleUnit x ctx) in
    if isnan x || isnan fx then (Some Undefined, ctx)
    else
      match fst (stepSearch w n angleUnit fuel x k_minInitialRate ctx) with
      | None => (None, ctx)
      | Some (result, error) =>
          (Some
             (if unacceptable w error result then Undefined
              else if lt (fabs error) (min w) then Complex result
              else
                Complex
                  (mul w
                     (round
                        (div w result
                           (pow (ten w)
                              (add w (floor (log10 (fabs error))) (two w)))))
                     (pow (ten w)
                        (add w (floor (log10 (fabs error))) (two w))))),
           ctx)
      end.
Proof.
  unfold templatedApproximate.
  rewrite CtxFacts.run_bind by apply CtxFacts.preserves_read.
  cbn [Ctx.read fst].
  rewrite CtxFacts.run_bind by apply approximateWithArgument_preserves.
  cbv zeta. destruct (_ || _); [reflexivity|].
  rewrite CtxFacts.run_bind by apply stepSearch_preserves.
  destruct (fst (stepSearch _ _ _ _ _ _ _)) as [[result error]|];
    [|reflexivity].
  destruct (unacceptable _ _ _); [reflexivity|].
  by destruct (lt _ _).
Qed.

End StepSearch.

Section StepSearchClaims.

Context `{FW : Framework} `{KS : Constants} `{LM : Libm}.
Variable w : Scalar.Width.
Variable n : DerivativeNode.
Variable angleUnit : AngleUnit.

Import Scalar ScalarFacts.

(** C4.  The search starts with [h = k_minInitialRate]; the attempt
    number [m] runs Ridders' algorithm with the step divided [m] times
    by ten, after which the step is divided once more; the loop goes on
    while the error of the attempt is unacceptable (relative error above
    the threshold, or error not a number) and the new step is not below
    [epsilon].  When the loop stops after the attempt [N] with an error
    that is still unacceptable, the undefined value is returned. *)
Theorem step_search_returns_undefined (ctx : Context) (N fuel : nat) :
  let x := approximateToScalar (childAtIndex n 2) ctx angleUnit in
  let fx := fst (approximateWithArgument n angleUnit x ctx) in
  isnan x || isnan fx = false ->
  (forall m, (m < N)%nat -> retry w n angleUnit ctx x m = true) ->
  retry w n angleUnit ctx x N = false ->
  (N < fuel)%nat ->
  decimated w 0 = k_minInitialRate /\
  (forall m, decimated w (S m) = div10 w (decimated w m)) /\
  (forall m,
     retry w n angleUnit ctx x m
     = (gt (fabs (div w (snd (attempt w n angleUnit ctx x m))
                        (fst (attempt w n angleUnit ctx x m))))
           k_maxErrorRateOnApproximation
        || isnan (snd (attempt w n angleUnit ctx x m)))
       && ge (decimated w (S m)) (epsilon w)) /\
  fst (stepSearch w n angleUnit fuel x k_minInitialRate ctx)
  = Some (attempt w n angleUnit ctx x N) /\
  (unacceptable w (snd (attempt w n angleUnit ctx x N))
     (fst (attempt w n angleUnit ctx x N)) = true ->
   fst (templatedApproximate w n angleUnit fuel ctx) = Some Undefined /\
   isUndefined Undefined = true).
Proof.
  cbv zeta. intros Hguard Hretry Hstop Hfuel.
  assert (Hrun : stepSearch w n angleUnit fuel
                   (approximateToScalar (childAtIndex n 2) ctx angleUnit)
                   k_minInitialRate ctx
                 = (Some (attempt w n angleUnit ctx
                            (approximateToScalar (childAtIndex n 2) ctx
                               angleUnit) N), ctx)).
  { apply (stepSearch_attempts w n angleUnit ctx _ N 0%nat fuel);
      [exact Hretry|exact Hstop|exact Hfuel]. }
  split; [reflexivity|]. split; [reflexivity|]. split; [reflexivity|].
  split; [by rewrite Hrun|].
  intros Hbad. split; [|reflexivity].
  rewrite templatedApproximate_run. cbv zeta.
  rewrite Hguard, Hrun. cbn [fst].
  destruct (attempt _ _ _ _ _ _) as [result error].
  cbn [fst snd] in Hbad. by rewrite Hbad.
Qed.

(** C5.  When the loop stops after the attempt [N] with an acceptable
    error: if the absolute error is below [FLT_MIN]/[DBL_MIN] the
    result is returned as it is; otherwise [round(result/g)*g] is
    returned, where [g = 10^(floor(log10(|error|))+2)]. *)
Theorem acceptable_result_is_rounded (ctx : Context) (N fuel : nat) :
  let x := approximateToScalar (childAtIndex n 2) ctx angleUnit in
  let fx := fst (approximateWithArgument n angleUnit x ctx) in
  let result := fst (attempt w n angleUnit ctx x N) in
  let error := snd (attempt w n angleUnit ctx x N) in
  let g := pow (ten w) (add w (floor (log10 (fabs error))) (two w)) in
  isnan x || isnan fx = false ->
  (forall m, (m < N)%nat -> retry w n angleUnit ctx x m = true) ->
  retry w n angleUnit ctx x N = false ->
  (N < fuel)%nat ->
  unacceptable w error result = false ->
  fst (templatedApproximate w n angleUnit fuel ctx)
  = Some (Complex (if lt (fabs error) (min w)
                   then result
                   else mul w (round (div w result g)) g)).
Proof.
  cbv zeta. intros Hguard Hretry Hstop Hfuel Hgood.
  assert (Hrun : stepSearch w n angleUnit fuel
                   (approximateToScalar (childAtIndex n 2) ctx angleUnit)
                   k_minInitialRate ctx
                 = (Some (attempt w n angleUnit ctx
                            (approximateToScalar (childAtIndex n 2) ctx
                               angleUnit) N), ctx)).
  { apply (stepSearch_attempts w n angleUnit ctx _ N 0%nat fuel);
      [exact Hretry|exact Hstop|exact Hfuel]. }
  rewrite templatedApproximate_run. cbv zeta. rewrite Hguard, Hrun.
  cbn [fst].
  destruct (attempt _ _ _ _ _ _) as [result error].
  cbn [fst snd] in *. rewrite Hgood. by destruct (lt _ _).
Qed.

(** C6.  Let the initial step [k_minInitialRate] be a number of the
    scalar type other than plus infinity.  Divided by ten at each
    iteration, it is no longer above or equal to [epsilon] after a
    bounded number [N] of divisions, and then, for every node, context and
    angle unit and whatever the body evaluates to, the loop stops after at
    most [N] attempts.  [searchBound] units of fuel are enough for the
    approximation to return. *)
Theorem step_search_terminates (ctx : Context) :
  valid_binary (prec w) (emax w) k_minInitialRate = true ->
  k_minInitialRate <> pinf ->
  let x := approximateToScalar (childAtIndex n 2) ctx angleUnit in
  (exists N, (1 <= N <= searchBound w)%nat /\
     ge (decimated w N) (epsilon w) = false) /\
  (forall N fuel,
     (1 <= N)%nat -> ge (decimated w N) (epsilon w) = false ->
     (N <= fuel)%nat ->
     exists m, (m < N)%nat /\
       fst (stepSearch w n angleUnit fuel x k_minInitialRate ctx)
       = Some (attempt w n angleUnit ctx x m)) /\
  (forall fuel, (searchBound w <= fuel)%nat ->
     exists value,
       fst (templatedApproximate w n angleUnit fuel ctx) = Some value).
Proof.
  intros Hvalid Hfinite x.
  pose proof (decimated_below_epsilon w Hvalid Hfinite) as Hbelow.
  assert (Hbound : (1 <= searchBound w)%nat) by (destruct w; cbn; lia).
  assert (Hstop : forall N fuel,
            (1 <= N)%nat -> ge (decimated w N) (epsilon w) = false ->
            (N <= fuel)%nat ->
            exists m, (m < N)%nat /\
              stepSearch w n angleUnit fuel x k_minInitialRate ctx
              = (Some (attempt w n angleUnit ctx x m), ctx)).
  { intros N fuel HN HbelowN Hfuel.
    apply (stepSearch_bounded w n angleUnit ctx x N 0%nat fuel HN HbelowN
             Hfuel). }
  split; [|split].
  - exists (searchBound w). split; [lia|exact Hbelow].
  - intros N fuel HN HbelowN Hfuel.
    destruct (Hstop N fuel HN HbelowN Hfuel) as (m & Hm & Hrun).
    exists m. by rewrite Hrun.
  - intros fuel Hfuel.
    destruct (Hstop (searchBound w) fuel Hbound Hbelow Hfuel)
      as (m & Hm & Hrun).
    rewrite templatedApproximate_run. cbv zeta. fold x.
    destruct (_ || _); [by eexists|].
    rewrite Hrun. cbn [fst].
    destruct (attempt _ _ _ _ _ _) as [result error]. by eexists.
Qed.

(** C7.  If the evaluation point (child 2) is not a number, or if the
    body (child 0) evaluated there is not a number, the undefined value
    is returned at once: whatever the fuel, and in particular with no
    fuel at all, with which the loop of the step search cannot make a
    single attempt. *)
Theorem undefined_guard (ctx : Context) :
  let x := approximateToScalar (childAtIndex n 2) ctx angleUnit in
  let fx := fst (approximateWithArgument n angleUnit x ctx) in
  isnan x = true \/ isnan fx = true ->
  templatedApproximate w n angleUnit 0 ctx = (Some Undefined, ctx) /\
  (forall fuel,
     templatedApproximate w n angleUnit fuel ctx = (Some Undefined, ctx)) /\
  (forall x' h, fst (stepSearch w n angleUnit 0 x' h ctx) = None).
Proof.
  cbv zeta. intros Hguard.
  assert (H : forall fuel,
            templatedApproximate w n angleUnit fuel ctx
            = (Some Undefined, ctx)).
  { intros fuel. rewrite templatedApproximate_run. cbv zeta.
    destruct Hguard as [-> | ->]; [reflexivity|].
    by rewrite orb_true_r. }
  split; [apply H|]. split; [exact H|reflexivity].
Qed.

(** C8.  The degree is 0 exactly when the three children have degree
    0; otherwise it is what the default of the base class yields, the
    "unknown degree" value, which is not 0. *)
Theorem polynomialDegree_zero_iff (unknownDegree : Z) (ctx : Context)
    (symbol : string) :
  unknownDegree <> 0 ->
  let allZero :=
    childPolynomialDegree (childAtIndex n 0) ctx symbol = 0 /\
    childPolynomialDegree (childAtIndex n 1) ctx symbol = 0 /\
    childPolynomialDegree (childAtIndex n 2) ctx symbol = 0 in
  (polynomialDegree unknownDegree n ctx symbol = 0 <-> allZero) /\
  (~ allZero ->
   polynomialDegree unknownDegree n ctx symbol
   = ExpressionNode_polynomialDegree unknownDegree n ctx symbol /\
   polynomialDegree unknownDegree n ctx symbol <> 0).
Proof.
  intros Hunknown. cbv zeta. unfold polynomialDegree.
  destruct (_ && _ && _) eqn:E.
  - apply andb_prop in E. destruct E as [E E2].
    apply andb_prop in E. destruct E as [E0 E1].
    apply Z.eqb_eq in E0, E1, E2. split; [tauto|]. intros Hnot. tauto.
  - unfold ExpressionNode_polynomialDegree at 1 2.
    assert (Hnot : ~ (childPolynomialDegree (childAtIndex n 0) ctx symbol = 0
                      /\ childPolynomialDegree (childAtIndex n 1) ctx symbol = 0
                      /\ childPolynomialDegree (childAtIndex n 2) ctx symbol = 0)).
    { intros (H0 & H1 & H2). rewrite H0, H1, H2 in E. discriminate E. }
    split; [tauto|]. intros _. split; [reflexivity|exact Hunknown].
Qed.

End StepSearchClaims.

(** *** The step search on sample runs *)

Section StepSearchSamples.

Import Scalar.

Local Abbreviation FW64 := (Sample.framework Double).
Local Abbreviation KS64 := (Sample.constants Double).
Local Abbreviation LM64 := Sample.libm.
Local Abbreviation point n :=
  (@approximateToScalar FW64 (@childAtIndex FW64 n 2) ∅ tt).
Local Abbreviation value n :=
  (fst (@approximateWithArgument FW64 n tt (point n) ∅)).
Local Abbreviation retry64 n :=
  (@retry FW64 KS64 Double n tt ∅ (point n)).
Local Abbreviation attempt64 n :=
  (@attempt FW64 KS64 Double n tt ∅ (point n)).
Local Abbreviation approximate64 n fuel :=
  (@templatedApproximate FW64 KS64 LM64 Double n tt fuel ∅).

Lemma steep_retries m :
  (m < 13)%nat -> retry64 (Sample.steep Double) m = true.
Proof.
  intros Hm.
  assert (Hall : forallb (fun m => retry64 (Sample.steep Double) m)
                   (seq 0 13) = true) by (vm_compute; reflexivity).
  rewrite forallb_forall in Hall. apply Hall, in_seq. lia.
Defined.

(** C4 on diff(x*inf, x, 2): the body is infinite at 2, the error of
    every attempt is unacceptable, and the step falls below [epsilon]
    after the fourteenth attempt. *)
Lemma step_search_returns_undefined_witness :
  (isnan (point (Sample.steep Double))
   || isnan (value (Sample.steep Double)) = false /\
   (forall m, (m < 13)%nat -> retry64 (Sample.steep Double) m = true) /\
   retry64 (Sample.steep Double) 13 = false /\
   (13 < 14)%nat /\
   @unacceptable KS64 Double (snd (attempt64 (Sample.steep Double) 13))
     (fst (attempt64 (Sample.steep Double) 13)) = true) /\
  fst (approximate64 (Sample.steep Double) 14) = Some Undefined.
Proof.
  assert (Hguard : isnan (point (Sample.steep Double))
                   || isnan (value (Sample.steep Double)) = false)
    by (vm_compute; reflexivity).
  assert (Hstop : retry64 (Sample.steep Double) 13 = false)
    by (vm_compute; reflexivity).
  assert (Hfuel : (13 < 14)%nat) by lia.
  assert (Hbad : @unacceptable KS64 Double
                   (snd (attempt64 (Sample.steep Double) 13))
                   (fst (attempt64 (Sample.steep Double) 13)) = true)
    by (vm_compute; reflexivity).
  refine (conj
            (conj Hguard (conj steep_retries (conj Hstop (conj Hfuel Hbad))))
            _).
  destruct (@step_search_returns_undefined FW64 KS64 LM64 Double
              (Sample.steep Double) tt ∅ 13 14
              Hguard steep_retries Hstop Hfuel)
    as (_ & _ & _ & _ & Hundefined).
  exact (proj1 (Hundefined Hbad)).
Defined.

(** C5 on diff(x*x*x, x, 2): the first attempt is acceptable. *)
Lemma acceptable_result_is_rounded_witness :
  (isnan (point (Sample.cube Double))
   || isnan (value (Sample.cube Double)) = false /\
   (forall m, (m < 0)%nat -> retry64 (Sample.cube Double) m = true) /\
   retry64 (Sample.cube Double) 0 = false /\
   (0 < 1)%nat /\
   @unacceptable KS64 Double (snd (attempt64 (Sample.cube Double) 0))
     (fst (attempt64 (Sample.cube Double) 0)) = false) /\
  fst (approximate64 (Sample.cube Double) 1)
  = Some (Complex
            (if lt (fabs (snd (attempt64 (Sample.cube Double) 0)))
                  (min Double)
             then fst (attempt64 (Sample.cube Double) 0)
             else
               mul Double
                 (@round LM64
                    (div Double (fst (attempt64 (Sample.cube Double) 0))
                       (@pow LM64 (ten Double)
                          (add Double
                             (@floor LM64
                                (@log10 LM64
                                   (fabs
                                      (snd
                                         (attempt64 (Sample.cube Double)
                                            0)))))
                             (two Double)))))
                 (@pow LM64 (ten Double)
                    (add Double
                       (@floor LM64
                          (@log10 LM64
                             (fabs
                                (snd (attempt64 (Sample.cube Double) 0)))))
                       (two Double))))).
Proof.
  assert (Hguard : isnan (point (Sample.cube Double))
                   || isnan (value (Sample.cube Double)) = false)
    by (vm_compute; reflexivity).
  assert (Hretry : forall m, (m < 0)%nat ->
                     retry64 (Sample.cube Double) m = true)
    by (intros m Hm; lia).
  assert (Hstop : retry64 (Sample.cube Double) 0 = false)
    by (vm_compute; reflexivity).
  assert (Hfuel : (0 < 1)%nat) by lia.
  assert (Hgood : @unacceptable KS64 Double
                    (snd (attempt64 (Sample.cube Double) 0))
                    (fst (attempt64 (Sample.cube Double) 0)) = false)
    by (vm_compute; reflexivity).
  refine (conj
            (conj Hguard (conj Hretry (conj Hstop (conj Hfuel Hgood)))) _).
  exact (@acceptable_result_is_rounded FW64 KS64 LM64 Double
           (Sample.cube Double) tt ∅ 0 1
           Hguard Hretry Hstop Hfuel Hgood).
Defined.

(** C6 with the initial step 0.01 in double precision, on
    diff(x*inf, x, 2), where no attempt is acceptable. *)
Lemma step_search_terminates_witness :
  (valid_binary (prec Double) (emax Double) (@k_minInitialRate KS64) = true /\
   @k_minInitialRate KS64 <> pinf) /\
  exists value,
    fst (approximate64 (Sample.steep Double) 1076) = Some value.
Proof.
  assert (Hvalid : valid_binary (prec Double) (emax Double)
                     (@k_minInitialRate KS64) = true)
    by (vm_compute; reflexivity).
  assert (Hfinite : @k_minInitialRate KS64 <> pinf)
    by (vm_compute; discriminate).
  refine (conj (conj Hvalid Hfinite) _).
  exact (proj2 (proj2 (@step_search_terminates FW64 KS64 LM64 Double
                         (Sample.steep Double) tt ∅ Hvalid Hfinite))
           1076%nat (le_n 1076)).
Defined.

(** C7 on diff(x*nan, x, 2): the body is not a number at 2. *)
Lemma undefined_guard_witness :
  (isnan (point (Sample.nowhere Double)) = true \/
   isnan (value (Sample.nowhere Double)) = true) /\
  approximate64 (Sample.nowhere Double) 0 = (Some Undefined, ∅).
Proof.
  assert (Hguard : isnan (point (Sample.nowhere Double)) = true \/
                   isnan (value (Sample.nowhere Double)) = true)
    by (right; vm_compute; reflexivity).
  split; [exact Hguard|].
  exact (proj1 (@undefined_guard FW64 KS64 LM64 Double
                  (Sample.nowhere Double) tt ∅ Hguard)).
Defined.

(** C8 on diff(x*x*x, x, 2) and the symbol x, the "unknown degree"
    being -1: the body has degree 3. *)
Lemma polynomialDegree_zero_iff_witness :
  (-1 <> 0)%Z /\
  @polynomialDegree FW64 (-1) (Sample.cube Double) ∅ Sample.x <> 0%Z.
Proof.
  assert (Hunknown : (-1 <> 0)%Z) by lia.
  split; [exact Hunknown|].
  assert (Hnot : ~ (@childPolynomialDegree FW64
                      (@childAtIndex FW64 (Sample.cube Double) 0) ∅ Sample.x
                    = 0%Z /\
                    @childPolynomialDegree FW64
                      (@childAtIndex FW64 (Sample.cube Double) 1) ∅ Sample.x
                    = 0%Z /\
                    @childPolynomialDegree FW64
                      (@childAtIndex FW64 (Sample.cube Double) 2) ∅ Sample.x
                    = 0%Z)).
  { intros [H _]. vm_compute in H. discriminate H. }
  exact (proj2 (proj2 (@polynomialDegree_zero_iff FW64 (Sample.cube Double)
                         (-1) ∅ Sample.x Hunknown) Hnot)).
Defined.

End StepSearchSamples.

(** ** Further properties of the two loops *)

Section ErrorEstimate.

Context `{FW : Framework} `{KS : Constants}.
Variable w : Scalar.Width.
Variable n : DerivativeNode.
Variable angleUnit : AngleUnit.

Import Scalar.

(** X1.  The error that Ridders' algorithm leaves in [*error] is never
    not-a-number: it is the initial value or a discrepancy that compared
    below it.  The test [isnan(error)] of the adaptive search therefore
    never decides: the error is unacceptable exactly when the relative
    error is above the threshold. *)
Theorem ridders_error_is_a_number (x h : spec_float) (ctx : Context) :
  let error := snd (fst (riddersApproximation w n angleUnit x h ctx)) in
  isnan error = false /\
  forall result,
    unacceptable w error result
    = gt (fabs (div w error result)) k_maxErrorRateOnApproximation.
Proof.
  cbv zeta.
  assert (Hpair : fst (riddersApproximation w n angleUnit x h ctx)
                  = (ans (fst (riddersLocals w n angleUnit x h ctx)),
                     error (fst (riddersLocals w n angleUnit x h ctx)))).
  { unfold riddersApproximation.
    rewrite CtxFacts.run_bind by apply riddersLocals_preserves.
    reflexivity. }
  rewrite Hpair. cbn [snd]. clear Hpair.
  pose proof (riddersLocals_final w n angleUnit ctx x h) as H.
  cbv zeta in H. revert H.
  generalize (fst (riddersLocals w n angleUnit x h ctx)).
  intros s (_ & _ & _ & _ & Hbest).
  pose proof (error_not_nan w s Hbest) as Hnan.
  split; [exact Hnan|].
  intros result. unfold unacceptable. rewrite Hnan. apply orb_false_r.
Qed.

End ErrorEstimate.

Section InfiniteStep.

Context `{FW : Framework} `{KS : Constants} `{LM : Libm}.
Variable w : Scalar.Width.
Variable n : DerivativeNode.
Variable angleUnit : AngleUnit.

Import Scalar.

(** A step that is plus infinity stays so when it is divided by ten and
    never falls below [epsilon]: the loop makes the same attempt again. *)
Lemma stepSearch_infinite (x : spec_float) (ctx : Context) (fuel : nat) :
  (let pair := fst (riddersApproximation w n angleUnit x pinf ctx) in
   unacceptable w (snd pair) (fst pair) = true) ->
  fst (stepSearch w n angleUnit fuel x pinf ctx) = None.
Proof.
  cbv zeta. intros Hbad.
  induction fuel as [|fuel IH]; [reflexivity|].
  rewrite stepSearch_S. cbv zeta.
  assert (Hdiv : div10 w pinf = pinf) by (by destruct w).
  assert (Hge : ge pinf (epsilon w) = true) by (by destruct w).
  rewrite Hdiv, Hbad, Hge. exact IH.
Qed.

(** X2.  The bound on the number of iterations rests on the initial step
    being finite: were [k_minInitialRate] plus infinity, then, whenever the
    first attempt is unacceptable, the loop would make the same attempt
    again and again, and the approximation would need more fuel than any
    given amount. *)
Theorem infinite_step_never_stops (ctx : Context) (fuel : nat) :
  let x := approximateToScalar (childAtIndex n 2) ctx angleUnit in
  k_minInitialRate = pinf ->
  isnan x || isnan (fst (approximateWithArgument n angleUnit x ctx))
  = false ->
  (let pair := fst (riddersApproximation w n angleUnit x pinf ctx) in
   unacceptable w (snd pair) (fst pair) = true) ->
  fst (templatedApproximate w n angleUnit fuel ctx) = None.
Proof.
  cbv zeta. intros Hinf Hnan Hbad.
  rewrite templatedApproximate_run. cbv zeta.
  rewrite Hnan, Hinf, (stepSearch_infinite _ ctx fuel Hbad). reflexivity.
Qed.

End InfiniteStep.

Section InfiniteStepSample.

Import Scalar.

Local Abbreviation FW64 := (Sample.framework Double).
Local Abbreviation KSinf := (Sample.constantsInfiniteStep Double).
Local Abbreviation LM64 := Sample.libm.

(** X2 on diff(x*inf, x, 2), where no attempt is acceptable. *)
Lemma infinite_step_never_stops_witness :
  (@k_minInitialRate KSinf = pinf /\
   isnan (ofZ Double 2)
   || isnan (fst (@approximateWithArgument FW64 (Sample.steep Double) tt
                    (ofZ Double 2) ∅)) = false /\
   @unacceptable KSinf Double
     (snd (fst (@riddersApproximation FW64 KSinf Double
                  (Sample.steep Double) tt (ofZ Double 2) pinf ∅)))
     (fst (fst (@riddersApproximation FW64 KSinf Double
                  (Sample.steep Double) tt (ofZ Double 2) pinf ∅)))
   = true) /\
  fst (@templatedApproximate FW64 KSinf LM64 Double (Sample.steep Double) tt
         1000 ∅) = None.
Proof.
  assert (Hinf : @k_minInitialRate KSinf = pinf) by reflexivity.
  assert (Hnan :
    isnan (ofZ Double 2)
    || isnan (fst (@approximateWithArgument FW64 (Sample.steep Double) tt
                     (ofZ Double 2) ∅)) = false)
    by (vm_compute; reflexivity).
  assert (Hbad :
    @unacceptable KSinf Double
      (snd (fst (@riddersApproximation FW64 KSinf Double
                   (Sample.steep Double) tt (ofZ Double 2) pinf ∅)))
      (fst (fst (@riddersApproximation FW64 KSinf Double
                   (Sample.steep Double) tt (ofZ Double 2) pinf ∅))) = true)
    by (vm_compute; reflexivity).
  refine (conj (conj Hinf (conj Hnan Hbad)) _).
  exact (@infinite_step_never_stops FW64 KSinf LM64 Double
           (Sample.steep Double) tt ∅ 1000 Hinf Hnan Hbad).
Defined.

End InfiniteStepSample.

(** ** Shapes of the results of the arithmetic *)

Module ShapeFacts.

Import Scalar Shape.

Lemma compare_Lt_Gt x y :
  SFcompare x y = Some Lt -> SFcompare y x = Some Gt.
Proof.
  destruct x as [sx|sx| |sx mx ex], y as [sy|sy| |sy my ey]; simpl;
    try destruct sx; try destruct sy; try congruence;
    change (Pos.compare_cont Eq) with Pos.compare;
    rewrite (Z.compare_antisym ex ey), (Pos.compare_antisym mx my);
    destruct (ex ?= ey)%Z; simpl; try congruence;
    destruct (mx ?= my)%positive; simpl; congruence.
Qed.

Lemma lt_asym x y : lt x y = true -> lt y x = false.
Proof.
  unfold lt, SFltb. intros H.
  destruct (SFcompare x y) as [[]|] eqn:E; try discriminate.
  by rewrite (compare_Lt_Gt _ _ E).
Qed.

(** An absolute value is never below zero. *)
Lemma lt_fabs_zero v s : lt (fabs v) (S754_zero s) = false.
Proof. by destruct v as [?|?| |? ? ?]. Qed.

Lemma sub_self w v : isZero (sub w v v) || isnan (sub w v v) = true.
Proof.
  destruct v as [[]|[]| |s m e]; try reflexivity.
  unfold sub, SFsub. rewrite Z.sub_diag. reflexivity.
Qed.

Lemma sub_self_finite w v :
  isFinite v || isZero v = true -> isZero (sub w v v) = true.
Proof.
  destruct v as [[]|[]| |s m e]; try done. intros _.
  unfold sub, SFsub. rewrite Z.sub_diag. reflexivity.
Qed.

Lemma add_zero_r w x z : isFinite x = true -> isZero z = true -> add w x z = x.
Proof. by destruct x, z. Qed.

Lemma sub_zero_r w x z : isFinite x = true -> isZero z = true -> sub w x z = x.
Proof. by destruct x, z. Qed.

Lemma two_finite w : isFinite (two w) = true.
Proof. by destruct w. Qed.

Lemma one_finite w : isFinite (one w) = true.
Proof. by destruct w. Qed.

Lemma mul_finite_zero w x z :
  isFinite x = true -> isZero z = true -> isZero (mul w x z) = true.
Proof. by destruct x, z. Qed.

Lemma mul_zero_finite w z x :
  isZero z = true -> isFinite x = true -> isZero (mul w z x) = true.
Proof. by destruct x, z. Qed.

Lemma sub_zero_zero w z z' :
  isZero z = true -> isZero z' = true -> isZero (sub w z z') = true.
Proof. by destruct z as [[]|?| |? ? ?], z' as [[]|?| |? ? ?]. Qed.

Lemma div_zero_finite w z x :
  isZero z = true -> isFinite x = true -> isZero (div w z x) = true.
Proof. by destruct x, z. Qed.

(** Zero, or not a number, over zero is not a number. *)
Lemma div_degenerate_zero w v z :
  isZero v || isnan v = true -> isZero z = true -> div w v z = nan.
Proof. by destruct v, z. Qed.

Lemma div_nan_r w v : div w v nan = nan.
Proof. by destruct v. Qed.

Lemma sub_nan_r w v : sub w v nan = nan.
Proof. by destruct v. Qed.

Lemma add_nan_r w v : add w v nan = nan.
Proof. by destruct v. Qed.

Lemma mul_nan_r w v : mul w v nan = nan.
Proof. by destruct v. Qed.

Lemma narrow_zero w v : isZero v = true -> isZero (narrow w v) = true.
Proof. by destruct w, v. Qed.

Lemma narrow_nan w : narrow w nan = nan.
Proof. by destruct w. Qed.

Lemma isnan_nan v : isnan v = true -> v = nan.
Proof. by destruct v. Qed.

Lemma maxValue_shape w :
  finiteNonnegative (maxValue w) = true /\ isFinite (maxValue w) = true.
Proof. by destruct w. Qed.

(** An absolute value below a finite number is zero or finite. *)
Lemma fabs_below_finite v bound :
  isFinite bound = true -> lt (fabs v) bound = true ->
  finiteNonnegative (fabs v) = true.
Proof. by destruct v as [?|?| |? ? ?], bound as [?|?| |[] ? ?]. Qed.

Lemma discrepancy_fabs w a j c :
  exists v, discrepancy w a j c = fabs v.
Proof. unfold discrepancy. destruct (gt _ _); eexists; reflexivity. Qed.

End ShapeFacts.

(** ** Degenerate steps *)

Section DegenerateSteps.

Context `{FW : Framework} `{KS : Constants}.
Variable w : Scalar.Width.
Variable n : DerivativeNode.
Variable angleUnit : AngleUnit.
Variable ctx : Context.

Import Scalar Shape ScalarFacts ShapeFacts.

(** The growth rate, from the two values of the body. *)
Lemma growthRate_unfold x h :
  growthRate w n angleUnit ctx x h
  = div w
      (sub w (fst (approximateWithArgument n angleUnit (add w x h) ctx))
             (fst (approximateWithArgument n angleUnit (sub w x h) ctx)))
      (mul w (two w) h).
Proof.
  unfold growthRate, growthRateAroundAbscissa.
  rewrite !CtxFacts.run_bind by apply approximateWithArgument_preserves.
  reflexivity.
Qed.

Lemma growthRate_nan_step x h :
  isnan h = true -> growthRate w n angleUnit ctx x h = nan.
Proof.
  intros Hh. apply isnan_nan in Hh. subst h.
  by rewrite growthRate_unfold, mul_nan_r, div_nan_r.
Qed.

Lemma growthRate_zero_step x h :
  isFinite x = true -> isZero h = true ->
  growthRate w n angleUnit ctx x h = nan.
Proof.
  intros Hx Hh.
  rewrite growthRate_unfold, (add_zero_r w x h), (sub_zero_r w x h) by done.
  apply div_degenerate_zero; [apply sub_self|].
  apply mul_finite_zero; [apply two_finite|exact Hh].
Qed.

(** X3.  The central difference is not a number as soon as one of the two
    values of the body is not a number, or the step is not a number; and
    at an abscissa that is finite and not zero, a step of zero gives 0/0
    or NaN/0, not a number either, whatever the body: [x + h] and [x - h]
    are both [x].  An abscissa of zero is left out: there [x + h] and
    [x - h] may be zeros of opposite signs, where a body may take
    different values. *)
Theorem growth_rate_not_a_number (x h : spec_float) :
  let plus := fst (approximateWithArgument n angleUnit (add w x h) ctx) in
  let minus := fst (approximateWithArgument n angleUnit (sub w x h) ctx) in
  (isnan plus || isnan minus || isnan h = true ->
   fst (growthRateAroundAbscissa w n angleUnit x h ctx) = nan) /\
  (isFinite x = true -> isZero h = true ->
   fst (growthRateAroundAbscissa w n angleUnit x h ctx) = nan).
Proof.
  cbv zeta. split.
  - intros H. apply orb_prop in H. destruct H as [H | H].
    + apply orb_prop in H.
      change (fst (growthRateAroundAbscissa w n angleUnit x h ctx))
        with (growthRate w n angleUnit ctx x h).
      rewrite growthRate_unfold.
      destruct H as [H | H]; apply isnan_nan in H; rewrite H.
      * by rewrite sub_nan_l, div_nan_l.
      * by rewrite sub_nan_r, div_nan_l.
    + by apply growthRate_nan_step.
  - apply growthRate_zero_step.
Qed.

(** A step that is zero at a finite abscissa, or that is not a number,
    stays so from one generation to the next. *)
Lemma stepSize_degenerate x h g :
  isFinite x = true -> isFinite k_rateStepSize = true ->
  degenerate (stepSize w x h 0) = true ->
  degenerate (stepSize w x h g) = true.
Proof.
  intros Hx Hk H0. induction g as [|g IH]; [exact H0|].
  cbn [stepSize]. unfold degenerate in *.
  apply orb_prop in IH. destruct IH as [Hz | Hn].
  - assert (Hd : isZero (narrow w (div Double (stepSize w x h g)
                                     k_rateStepSize)) = true)
      by (by apply narrow_zero, div_zero_finite).
    rewrite add_zero_r by done.
    rewrite sub_self_finite; [done|]. by rewrite Hx.
  - apply isnan_nan in Hn. rewrite Hn.
    by rewrite div_nan_l, narrow_nan, add_nan_r, sub_nan_l.
Qed.

Lemma growthRate_degenerate x h :
  isFinite x = true -> degenerate h = true ->
  growthRate w n angleUnit ctx x h = nan.
Proof.
  intros Hx Hh. apply orb_prop in Hh. destruct Hh as [Hz | Hn].
  - by apply growthRate_zero_step.
  - by apply growthRate_nan_step.
Qed.

Lemma riddersApproximation_degenerate x h :
  isFinite x = true -> isFinite k_rateStepSize = true ->
  degenerate (sub w (add w x h) x) = true ->
  riddersApproximation w n angleUnit x h ctx = ((zero, maxValue w), ctx).
Proof.
  intros Hx Hk H0.
  assert (Hnan : forall g, (g <= 9)%nat ->
            growthRate w n angleUnit ctx x (stepSize w x h g) = nan).
  { intros g _. apply growthRate_degenerate; [exact Hx|].
    by apply stepSize_degenerate. }
  pose proof (all_nan_locals w n angleUnit ctx x h Hnan) as H.
  unfold riddersApproximation.
  rewrite CtxFacts.run_bind by apply riddersLocals_preserves.
  cbv zeta in H. revert H.
  generalize (fst (riddersLocals w n angleUnit x h ctx)).
  intros s (_ & -> & -> & _). reflexivity.
Qed.

(** X4.  When the step [h] is absorbed by an abscissa [x] that is finite
    and not zero, so that [(x + h) - x] is zero, or when that difference
    is not a number,
    Ridders' algorithm finds nothing: it returns 0 and leaves
    [FLT_MAX]/[DBL_MAX] in [*error].  The rate is assumed finite.  A step
    [h] of zero, which the assertion of the function forbids, is such a
    step. *)
Theorem absorbed_step_yields_nothing (x h : spec_float) :
  isFinite x = true -> isFinite k_rateStepSize = true ->
  degenerate (sub w (add w x h) x) = true ->
  riddersApproximation w n angleUnit x h ctx = ((zero, maxValue w), ctx) /\
  (isZero h = true -> degenerate (sub w (add w x h) x) = true).
Proof.
  intros Hx Hk H0. split; [by apply riddersApproximation_degenerate|].
  intros Hh. rewrite (add_zero_r w x h) by done.
  unfold degenerate. rewrite sub_self_finite; [done|]. by rewrite Hx.
Qed.

Lemma unacceptable_max_zero :
  lt k_maxErrorRateOnApproximation pinf = true ->
  unacceptable w (maxValue w) zero = true.
Proof.
  intros H. unfold unacceptable.
  replace (gt (fabs (div w (maxValue w) zero)) k_maxErrorRateOnApproximation)
    with true; [done|].
  symmetry. destruct w; exact H.
Qed.

End DegenerateSteps.

Section AbsorbedSteps.

Import Scalar Shape.

Context {KS : Constants}.

(** [absorbs] checks the steps of the adaptive search one after the
    other. *)
Lemma absorbs_decimated w x m0 count :
  absorbs w x (decimated w m0) count = true ->
  forall m, (m0 <= m)%nat -> (m < m0 + count)%nat ->
    degenerate (sub w (add w x (decimated w m)) x) = true.
Proof.
  revert m0. induction count as [|c IH]; intros m0 Hall m Hle Hlt.
  - lia.
  - cbn [absorbs] in Hall. apply andb_prop in Hall as [Hhere Hrest].
    destruct (Nat.eq_dec m m0) as [->|Hne]; [exact Hhere|].
    change (div10 w (decimated w m0)) with (decimated w (S m0)) in Hrest.
    apply (IH (S m0) Hrest); lia.
Qed.

End AbsorbedSteps.

Section AbsorbedSearch.

Context `{FW : Framework} `{KS : Constants} `{LM : Libm}.
Variable w : Scalar.Width.
Variable n : DerivativeNode.
Variable angleUnit : AngleUnit.

Import Scalar Shape ScalarFacts ShapeFacts.

(** X5.  When the evaluation point is finite, not zero, and so large that
    it absorbs every step the search tries, [(x + h) - x] being zero (or not a
    number) for each of them, the derivative is undefined, whatever the
    body.  The constants are assumed to be finite numbers of the scalar
    type. *)
Theorem absorbed_steps_give_undefined (ctx : Context) (fuel : nat) :
  let x := approximateToScalar (childAtIndex n 2) ctx angleUnit in
  isFinite x = true ->
  isFinite k_rateStepSize = true ->
  valid_binary (prec w) (emax w) k_minInitialRate = true ->
  k_minInitialRate <> pinf ->
  lt k_maxErrorRateOnApproximation pinf = true ->
  (forall m, (m < searchBound w)%nat ->
     degenerate (sub w (add w x (decimated w m)) x) = true) ->
  (searchBound w <= fuel)%nat ->
  fst (templatedApproximate w n angleUnit fuel ctx) = Some Undefined.
Proof.
  intros x Hx Hk Hvalid Hfinite Hthreshold Habsorbed Hfuel.
  pose proof (decimated_below_epsilon w Hvalid Hfinite) as Hbelow.
  assert (Hbound : (1 <= searchBound w)%nat) by (destruct w; cbn; lia).
  destruct (stepSearch_bounded w n angleUnit ctx x (searchBound w) 0%nat fuel
              Hbound Hbelow Hfuel) as (m & Hm & Hrun).
  change (decimated w 0) with k_minInitialRate in Hrun.
  rewrite templatedApproximate_run. cbv zeta. fold x.
  destruct (_ || _); [reflexivity|].
  rewrite Hrun. cbn [fst Nat.add]. unfold attempt.
  rewrite (riddersApproximation_degenerate w n angleUnit ctx x
             (decimated w m) Hx Hk (Habsorbed m Hm)).
  cbn [fst]. by rewrite (unacceptable_max_zero w Hthreshold).
Qed.

End AbsorbedSearch.

Section AbsorbedSamples.

Import Scalar Shape.

Local Abbreviation FW64 := (Sample.framework Double).
Local Abbreviation KS64 := (Sample.constants Double).
Local Abbreviation LM64 := Sample.libm.

(** X4 at the abscissa 2^60 with the step 0.01. *)
Lemma absorbed_step_yields_nothing_witness :
  (isFinite (ofZ Double (2 ^ 60)) = true /\
   isFinite (@k_rateStepSize KS64) = true /\
   degenerate (sub Double (add Double (ofZ Double (2 ^ 60))
                             (Sample.decimal Double 1 100))
                 (ofZ Double (2 ^ 60))) = true) /\
  @riddersApproximation FW64 KS64 Double (Sample.far Double) tt
    (ofZ Double (2 ^ 60)) (Sample.decimal Double 1 100) ∅
  = ((zero, DBL_MAX), ∅).
Proof.
  assert (Hx : isFinite (ofZ Double (2 ^ 60)) = true)
    by (vm_compute; reflexivity).
  assert (Hk : isFinite (@k_rateStepSize KS64) = true)
    by (vm_compute; reflexivity).
  assert (H0 : degenerate (sub Double (add Double (ofZ Double (2 ^ 60))
                                         (Sample.decimal Double 1 100))
                             (ofZ Double (2 ^ 60))) = true)
    by (vm_compute; reflexivity).
  refine (conj (conj Hx (conj Hk H0)) _).
  exact (proj1 (@absorbed_step_yields_nothing FW64 KS64 Double
                  (Sample.far Double) tt ∅ (ofZ Double (2 ^ 60))
                  (Sample.decimal Double 1 100) Hx Hk H0)).
Defined.

Lemma far_steps_absorbed m :
  (m < searchBound Double)%nat ->
  degenerate (sub Double (add Double (ofZ Double (2 ^ 60))
                            (@decimated KS64 Double m))
                (ofZ Double (2 ^ 60))) = true.
Proof.
  assert (Hall : absorbs Double (ofZ Double (2 ^ 60))
                   (@decimated KS64 Double 0) (searchBound Double) = true)
    by (vm_compute; reflexivity).
  exact (fun Hm => absorbs_decimated Double _ 0 _ Hall m (Nat.le_0_l m) Hm).
Defined.

(** X5 on diff(x*x*x, x, 2^60). *)
Lemma absorbed_steps_give_undefined_witness :
  (isFinite (ofZ Double (2 ^ 60)) = true /\
   isFinite (@k_rateStepSize KS64) = true /\
   valid_binary (prec Double) (emax Double) (@k_minInitialRate KS64) = true /\
   @k_minInitialRate KS64 <> pinf /\
   lt (@k_maxErrorRateOnApproximation KS64) pinf = true /\
   (searchBound Double <= 1076)%nat) /\
  fst (@templatedApproximate FW64 KS64 LM64 Double (Sample.far Double) tt
         1076 ∅) = Some Undefined.
Proof.
  assert (Hx : isFinite (ofZ Double (2 ^ 60)) = true)
    by (vm_compute; reflexivity).
  assert (Hk : isFinite (@k_rateStepSize KS64) = true)
    by (vm_compute; reflexivity).
  assert (Hvalid : valid_binary (prec Double) (emax Double)
                     (@k_minInitialRate KS64) = true)
    by (vm_compute; reflexivity).
  assert (Hfinite : @k_minInitialRate KS64 <> pinf)
    by (vm_compute; discriminate).
  assert (Hthreshold : lt (@k_maxErrorRateOnApproximation KS64) pinf = true)
    by (vm_compute; reflexivity).
  assert (Hfuel : (searchBound Double <= 1076)%nat) by (cbn; lia).
  refine (conj
            (conj Hx (conj Hk (conj Hvalid (conj Hfinite
               (conj Hthreshold Hfuel))))) _).
  exact (@absorbed_steps_give_undefined FW64 KS64 LM64 Double
           (Sample.far Double) tt ∅ 1076 Hx Hk Hvalid Hfinite Hthreshold
           far_steps_absorbed Hfuel).
Defined.

End AbsorbedSamples.

(** ** The range of the error estimate and the steps of a run *)

Section ErrorRange.

Context `{FW : Framework} `{KS : Constants}.
Variable w : Scalar.Width.
Variable n : DerivativeNode.
Variable angleUnit : AngleUnit.

Import Scalar Shape ScalarFacts ShapeFacts.

(** The value returned and the value left in [*error] are those of the
    locals. *)
Lemma riddersApproximation_run x h ctx :
  riddersApproximation w n angleUnit x h ctx
  = ((ans (fst (riddersLocals w n angleUnit x h ctx)),
      error (fst (riddersLocals w n angleUnit x h ctx))), ctx).
Proof.
  unfold riddersApproximation.
  rewrite CtxFacts.run_bind by apply riddersLocals_preserves.
  reflexivity.
Qed.

Lemma best_error_range P s :
  best w P s ->
  finiteNonnegative (error s) = true /\ lt (maxValue w) (error s) = false.
Proof.
  intros [_ [[-> _]|(Hlt & r & c & _ & He & _)]].
  - split; [apply maxValue_shape|apply lt_irrefl].
  - destruct (discrepancy_fabs w (a s) r c) as [v Hv].
    rewrite He, Hv in *. split; [|by apply lt_asym].
    apply (fabs_below_finite v (maxValue w)); [apply maxValue_shape|done].
Qed.

(** X6.  The error that Ridders' algorithm leaves in [*error] is plus zero
    or a positive finite number, and it is not above the [FLT_MAX] or
    [DBL_MAX] it was initialized with: it is never negative, never
    infinite. *)
Theorem ridders_error_is_bounded (x h : spec_float) (ctx : Context) :
  let error := snd (fst (riddersApproximation w n angleUnit x h ctx)) in
  finiteNonnegative error = true /\ lt (maxValue w) error = false.
Proof.
  cbv zeta. rewrite riddersApproximation_run. cbn [fst snd].
  pose proof (riddersLocals_final w n angleUnit ctx x h) as H.
  cbv zeta in H. revert H.
  generalize (fst (riddersLocals w n angleUnit x h ctx)).
  intros s (_ & _ & _ & _ & Hbest).
  exact (best_error_range _ s Hbest).
Qed.

(** X7.  Row 0 of the table holds the central differences: the column of
    each generation [c] that was run holds the growth rate for the step
    [stepSize c], which is the step of the generation before divided by
    [k_rateStepSize] and made representable as [(x + hh) - x]; [hh] is the
    step of the last generation. *)
Theorem first_row_holds_growth_rates (x h : spec_float) (ctx : Context) :
  let s := fst (riddersLocals w n angleUnit x h ctx) in
  hh s = stepSize w x h (lastGeneration s) /\
  forall c, (c <= lastGeneration s)%nat ->
    Table.get (a s) 0 c
    = fst (growthRateAroundAbscissa w n angleUnit x (stepSize w x h c) ctx).
Proof.
  rewrite riddersLocals_unfold. set (s0 := Build_Locals _ _ _ _ _ _).
  pose proof (loopOnStepSizes_ind w n angleUnit ctx x
    (fun s g => Table.wf (a s) /\ hh s = stepSize w x h g /\
       forall c, (c <= g)%nat ->
         Table.get (a s) 0 c
         = growthRate w n angleUnit ctx x (stepSize w x h c))) as Hind.
  cbv zeta in *.
  refine (proj2 (Hind _ _ 9%nat s0 _ _ _)).
  - intros s g g' H. exact H.
  - intros s Hi (Hwf & Hhh & Hrow).
    destruct (generation_table w n angleUnit ctx x s Hwf Hi)
      as (Hwf' & Hframe & Hzero & _).
    split; [exact Hwf'|]. split.
    + rewrite generation_hh, Hhh.
      destruct (i s) as [|g]; [lia|].
      replace (S g - 1)%nat with g by lia. reflexivity.
    + intros c Hc. destruct (decide (c = i s)) as [->|Hne].
      * rewrite Hzero, Hhh.
        destruct (i s) as [|g]; [lia|].
        replace (S g - 1)%nat with g by lia. reflexivity.
      * rewrite Hframe by done. apply Hrow. lia.
  - reflexivity.
  - cbn. lia.
  - cbn [s0 i a hh]. change (1 - 1)%nat with 0%nat.
    split; [apply TableFacts.wf_set, TableFacts.wf_make|].
    split; [reflexivity|].
    intros c Hc. replace c with 0%nat by lia.
    apply TableFacts.get_set_eq; [apply TableFacts.wf_make|lia|lia].
Qed.

End ErrorRange.

(** ** Central differences that are exactly zero *)

Section Settled.

Context `{FW : Framework} `{KS : Constants}.
Variable w : Scalar.Width.
Variable n : DerivativeNode.
Variable angleUnit : AngleUnit.
Variable ctx : Context.
Variable x : spec_float.

Import Scalar Shape ScalarFacts ShapeFacts.

Lemma fabs_zero z : isZero z = true -> fabs z = zero.
Proof. by destruct z. Qed.

Lemma lt_zero_maxValue : lt zero (maxValue w) = true.
Proof. by destruct w. Qed.

Lemma div_zero_nondegenerate z d :
  isZero z = true -> degenerate d = false -> isZero (div w z d) = true.
Proof. destruct z as [?|?| |? ? ?], d as [?|?| |? ? ?]; done. Qed.

(** Once the error is zero no discrepancy compares below it: the answer
    and the error stay what they are. *)
Lemma extrapolate_settled j fac s :
  error s = zero ->
  error (extrapolate w j fac s) = zero /\ ans (extrapolate w j fac s) = ans s.
Proof.
  intros Herror.
  pose proof (extrapolate_update w j fac s) as H. cbv zeta in H.
  rewrite extrapolate_errt in H.
  destruct (discrepancy_fabs w (a (extrapolate w j fac s)) j (i s))
    as [v Hv].
  rewrite Hv, Herror in H. unfold zero in H. rewrite lt_fabs_zero in H.
  exact H.
Qed.

Lemma loopOnOrders_S count j fac s :
  loopOnOrders w (S count) j fac s
  = loopOnOrders w count (S j)
      (narrow w (mul Double (mul Double k_rateStepSize k_rateStepSize) fac))
      (extrapolate w j fac s).
Proof. reflexivity. Qed.

Lemma loopOnOrders_settled count j fac s :
  error s = zero ->
  error (loopOnOrders w count j fac s) = zero /\
  ans (loopOnOrders w count j fac s) = ans s.
Proof.
  revert j fac s. induction count as [|count IH]; intros j fac s Herror;
    [done|].
  rewrite loopOnOrders_S.
  destruct (extrapolate_settled j fac s Herror) as [He Ha].
  revert He Ha. generalize (extrapolate w j fac s). intros s1 He Ha.
  destruct (IH (S j)
              (narrow w
                 (mul Double (mul Double k_rateStepSize k_rateStepSize) fac))
              s1 He) as [He' Ha'].
  rewrite He', Ha', Ha. split; reflexivity.
Qed.

Lemma generation_settled s :
  error s = zero ->
  error (generation w n angleUnit ctx x s) = zero /\
  ans (generation w n angleUnit ctx x s) = ans s.
Proof.
  intros Herror. unfold generation.
  exact (loopOnOrders_settled 9 1 _ (beginGeneration s _ _) Herror).
Qed.

Lemma loopOnStepSizes_settled count s :
  error s = zero ->
  error (fst (loopOnStepSizes w n angleUnit x count s ctx)) = zero /\
  ans (fst (loopOnStepSizes w n angleUnit x count s ctx)) = ans s.
Proof.
  revert s. induction count as [|count IH]; intros s Herror; [done|].
  rewrite loopOnStepSizes_S.
  destruct (generation_settled s Herror) as [He Ha].
  revert He Ha. generalize (generation w n angleUnit ctx x s).
  intros g He Ha.
  destruct (diverges w g); [split; [exact He|exact Ha]|].
  destruct (IH (atGeneration g (S (i g))) He) as [He' Ha'].
  rewrite He', Ha'. split; [reflexivity|exact Ha].
Qed.

(** The first Richardson combination of two zeros is a zero, with a
    discrepancy of zero: it is recorded. *)
Lemma extrapolate_flat s :
  Table.wf (a s) -> i s = 1%nat -> error s = maxValue w ->
  isZero (Table.get (a s) 0 0) = true ->
  isZero (Table.get (a s) 0 1) = true ->
  isFinite (ratePower w 1) = true ->
  isFinite (sub w (ratePower w 1) (one w)) = true ->
  let s1 := extrapolate w 1 (ratePower w 1) s in
  error s1 = zero /\ isZero (ans s1) = true.
Proof.
  intros Hwf Hi Herror H00 H01 Hfac Hden. cbv zeta.
  pose proof (extrapolate_update w 1 (ratePower w 1) s) as H.
  cbv zeta in H. rewrite extrapolate_errt in H.
  rewrite extrapolate_a in H. rewrite Hi in H.
  change (1 - 1)%nat with 0%nat in H.
  set (v := richardson w _ _ _) in H.
  assert (Hv : isZero v = true).
  { unfold v, richardson. apply div_zero_finite; [|exact Hden].
    apply sub_zero_zero; [|exact H00]. by apply mul_zero_finite. }
  assert (Hd : discrepancy w (Table.set (a s) 1 1 v) 1 1 = zero).
  { unfold discrepancy. change (1 - 1)%nat with 0%nat.
    rewrite TableFacts.get_set_eq by (done || lia).
    rewrite !TableFacts.get_set_ne by lia.
    rewrite (fabs_zero (sub w v (Table.get (a s) 0 1)))
      by (by apply sub_zero_zero).
    rewrite (fabs_zero (sub w v (Table.get (a s) 0 0)))
      by (by apply sub_zero_zero).
    by destruct (gt _ _). }
  rewrite Hd, Herror, lt_zero_maxValue in H. destruct H as [-> ->].
  split; [reflexivity|].
  by rewrite TableFacts.get_set_eq by (done || lia).
Qed.

(** When the central differences of the generations 0 and 1 are zeros,
    Ridders' algorithm returns a zero with an error of zero. *)
Lemma riddersApproximation_flat h :
  isFinite (ratePower w 1) = true ->
  isFinite (sub w (ratePower w 1) (one w)) = true ->
  isZero (growthRate w n angleUnit ctx x (stepSize w x h 0)) = true ->
  isZero (growthRate w n angleUnit ctx x (stepSize w x h 1)) = true ->
  exists sign,
    riddersApproximation w n angleUnit x h ctx
    = ((S754_zero sign, zero), ctx).
Proof.
  intros Hfac Hden H0 H1.
  rewrite riddersApproximation_run, riddersLocals_unfold.
  set (s0 := Build_Locals _ _ _ _ _ _).
  assert (Hfirst :
    error (generation w n angleUnit ctx x s0) = zero /\
    isZero (ans (generation w n angleUnit ctx x s0)) = true).
  { unfold generation. rewrite loopOnOrders_S, (ratePower_S w 1) by lia.
    set (s1 := beginGeneration s0 _ _).
    assert (Hwf : Table.wf (a s1))
      by (apply TableFacts.wf_set, TableFacts.wf_set, TableFacts.wf_make).
    assert (H00 : isZero (Table.get (a s1) 0 0) = true).
    { unfold s1, s0, beginGeneration. cbn [a i].
      rewrite TableFacts.get_set_ne by lia.
      rewrite TableFacts.get_set_eq
        by (apply TableFacts.wf_make || lia).
      exact H0. }
    assert (H01 : isZero (Table.get (a s1) 0 1) = true).
    { unfold s1, s0, beginGeneration. cbn [a i hh].
      rewrite TableFacts.get_set_eq
        by (apply TableFacts.wf_set, TableFacts.wf_make || lia).
      exact H1. }
    destruct (extrapolate_flat s1 Hwf eq_refl eq_refl H00 H01 Hfac Hden)
      as [He Ha].
    revert He Ha.
    generalize (extrapolate w 1 (ratePower w 1) s1).
    intros s2 He Ha.
    destruct (loopOnOrders_settled 8 2 (ratePower w 2) s2 He)
      as [He' Ha'].
    rewrite He', Ha'. split; [reflexivity|exact Ha]. }
  rewrite loopOnStepSizes_S.
  revert Hfirst. generalize (generation w n angleUnit ctx x s0).
  intros g [He Ha].
  assert (Hans : exists sign, ans g = S754_zero sign).
  { destruct (ans g) as [sign|?| |? ? ?]; try discriminate Ha.
    by exists sign. }
  destruct Hans as [sign Hans]. exists sign.
  destruct (diverges w g).
  - cbn [fst]. by rewrite He, Hans.
  - destruct (loopOnStepSizes_settled 8 (atGeneration g (S (i g))) He)
      as [He' Ha'].
    rewrite He', Ha'. cbn [atGeneration ans]. by rewrite Hans.
Qed.

End Settled.

Section FlatSearch.

Context `{FW : Framework} `{KS : Constants} `{LM : Libm}.
Variable w : Scalar.Width.
Variable n : DerivativeNode.
Variable angleUnit : AngleUnit.

Import Scalar Shape ScalarFacts ShapeFacts.

(** A zero with an error of zero is accepted and returned as it is. *)
Lemma templatedApproximate_flat (ctx : Context) (fuel : nat) :
  let x := approximateToScalar (childAtIndex n 2) ctx angleUnit in
  isnan x || isnan (fst (approximateWithArgument n angleUnit x ctx))
  = false ->
  isFinite (ratePower w 1) = true ->
  isFinite (sub w (ratePower w 1) (one w)) = true ->
  isZero (growthRate w n angleUnit ctx x
            (stepSize w x k_minInitialRate 0)) = true ->
  isZero (growthRate w n angleUnit ctx x
            (stepSize w x k_minInitialRate 1)) = true ->
  exists sign,
    fst (templatedApproximate w n angleUnit (S fuel) ctx)
    = Some (Complex (S754_zero sign)).
Proof.
  intros x Hnan Hfac Hden H0 H1.
  destruct (riddersApproximation_flat w n angleUnit ctx x k_minInitialRate
              Hfac Hden H0 H1) as [sign Hrun].
  exists sign.
  rewrite templatedApproximate_run. cbv zeta. fold x. rewrite Hnan.
  rewrite stepSearch_S. cbv zeta. rewrite Hrun. cbn [fst snd].
  assert (Hok : unacceptable w zero (S754_zero sign) = false).
  { unfold unacceptable.
    replace (div w zero (S754_zero sign)) with nan by (by destruct w, sign).
    change (lt k_maxErrorRateOnApproximation nan || false = false).
    by rewrite lt_nan_r. }
  rewrite Hok. cbn [andb fst]. rewrite Hok.
  by destruct w.
Qed.

(** X8.  When the central differences for the first two steps of the
    first attempt are exactly zero, the derivative is exactly zero: the
    first Richardson combination is a zero with an error of zero, nothing
    that later generations compute compares below that error, and the
    pair is accepted at once, 0/0 not being above the threshold.  The
    squared rate and the squared rate minus one are assumed finite. *)
Theorem flat_start_gives_zero (ctx : Context) (fuel : nat) :
  let x := approximateToScalar (childAtIndex n 2) ctx angleUnit in
  let rate g :=
    fst (growthRateAroundAbscissa w n angleUnit x
           (stepSize w x k_minInitialRate g) ctx) in
  isnan x || isnan (fst (approximateWithArgument n angleUnit x ctx))
  = false ->
  isFinite (ratePower w 1) = true ->
  isFinite (sub w (ratePower w 1) (one w)) = true ->
  isZero (rate 0%nat) = true -> isZero (rate 1%nat) = true ->
  exists sign,
    fst (templatedApproximate w n angleUnit (S fuel) ctx)
    = Some (Complex (S754_zero sign)).
Proof. cbv zeta. apply templatedApproximate_flat. Qed.

(** X9.  A body that takes the same finite value whatever the symbol is
    bound to has the derivative zero, provided the evaluation point is a
    number and does not absorb the first two steps: twice each of them is
    neither zero nor not-a-number.  The squared rate and the squared rate
    minus one are assumed finite. *)
Theorem constant_body_has_derivative_zero (ctx : Context) (fuel : nat)
    (value : spec_float) :
  let x := approximateToScalar (childAtIndex n 2) ctx angleUnit in
  (forall v, fst (approximateWithArgument n angleUnit v ctx) = value) ->
  isFinite value || isZero value = true ->
  isnan x = false ->
  isFinite (ratePower w 1) = true ->
  isFinite (sub w (ratePower w 1) (one w)) = true ->
  degenerate (mul w (two w) (stepSize w x k_minInitialRate 0)) = false ->
  degenerate (mul w (two w) (stepSize w x k_minInitialRate 1)) = false ->
  exists sign,
    fst (templatedApproximate w n angleUnit (S fuel) ctx)
    = Some (Complex (S754_zero sign)).
Proof.
  intros x Hbody Hvalue Hx Hfac Hden H0 H1.
  assert (Hrate : forall h,
    degenerate (mul w (two w) h) = false ->
    isZero (growthRate w n angleUnit ctx x h) = true).
  { intros h Hh. rewrite growthRate_unfold, !Hbody.
    apply div_zero_nondegenerate; [|exact Hh].
    by apply sub_self_finite. }
  apply templatedApproximate_flat; try done; try (by apply Hrate).
  fold x. rewrite Hx, Hbody. cbn [orb].
  by destruct value.
Qed.

End FlatSearch.

Section FlatSamples.

Import Scalar Shape.

Local Abbreviation FW64 := (Sample.framework Double).
Local Abbreviation KS64 := (Sample.constants Double).
Local Abbreviation LM64 := Sample.libm.

(** X8 on diff(x*x, x, 0): the body is even, so that the central
    differences at zero vanish. *)
Lemma flat_start_gives_zero_witness :
  (isnan (ofZ Double 0)
   || isnan (fst (@approximateWithArgument FW64 (Sample.even Double) tt
                    (ofZ Double 0) ∅)) = false /\
   isFinite (mul Double (@k_rateStepSize KS64) (@k_rateStepSize KS64))
   = true /\
   isFinite (sub Double
               (mul Double (@k_rateStepSize KS64) (@k_rateStepSize KS64))
               (one Double)) = true /\
   isZero (fst (@growthRateAroundAbscissa FW64 Double (Sample.even Double)
                  tt (ofZ Double 0)
                  (@stepSize KS64 Double (ofZ Double 0)
                     (@k_minInitialRate KS64) 0) ∅)) = true /\
   isZero (fst (@growthRateAroundAbscissa FW64 Double (Sample.even Double)
                  tt (ofZ Double 0)
                  (@stepSize KS64 Double (ofZ Double 0)
                     (@k_minInitialRate KS64) 1) ∅)) = true) /\
  exists sign,
    fst (@templatedApproximate FW64 KS64 LM64 Double (Sample.even Double) tt
           (S 0) ∅) = Some (Complex (S754_zero sign)).
Proof.
  assert (Hnan :
    isnan (ofZ Double 0)
    || isnan (fst (@approximateWithArgument FW64 (Sample.even Double) tt
                     (ofZ Double 0) ∅)) = false)
    by (vm_compute; reflexivity).
  assert (Hfac :
    isFinite (mul Double (@k_rateStepSize KS64) (@k_rateStepSize KS64))
    = true) by (vm_compute; reflexivity).
  assert (Hden :
    isFinite (sub Double
                (mul Double (@k_rateStepSize KS64) (@k_rateStepSize KS64))
                (one Double)) = true) by (vm_compute; reflexivity).
  assert (H0 :
    isZero (fst (@growthRateAroundAbscissa FW64 Double (Sample.even Double)
                   tt (ofZ Double 0)
                   (@stepSize KS64 Double (ofZ Double 0)
                      (@k_minInitialRate KS64) 0) ∅)) = true)
    by (vm_compute; reflexivity).
  assert (H1 :
    isZero (fst (@growthRateAroundAbscissa FW64 Double (Sample.even Double)
                   tt (ofZ Double 0)
                   (@stepSize KS64 Double (ofZ Double 0)
                      (@k_minInitialRate KS64) 1) ∅)) = true)
    by (vm_compute; reflexivity).
  refine (conj (conj Hnan (conj Hfac (conj Hden (conj H0 H1)))) _).
  exact (@flat_start_gives_zero FW64 KS64 LM64 Double (Sample.even Double)
           tt ∅ 0 Hnan Hfac Hden H0 H1).
Defined.

(** X9 on diff(5, x, 2). *)
Lemma constant_body_has_derivative_zero_witness :
  ((forall v,
      fst (@approximateWithArgument FW64 (Sample.flat Double) tt v ∅)
      = ofZ Double 5) /\
   isFinite (ofZ Double 5) || isZero (ofZ Double 5) = true /\
   isnan (ofZ Double 2) = false /\
   isFinite (mul Double (@k_rateStepSize KS64) (@k_rateStepSize KS64))
   = true /\
   isFinite (sub Double
               (mul Double (@k_rateStepSize KS64) (@k_rateStepSize KS64))
               (one Double)) = true /\
   degenerate (mul Double (two Double)
                 (@stepSize KS64 Double (ofZ Double 2)
                    (@k_minInitialRate KS64) 0)) = false /\
   degenerate (mul Double (two Double)
                 (@stepSize KS64 Double (ofZ Double 2)
                    (@k_minInitialRate KS64) 1)) = false) /\
  exists sign,
    fst (@templatedApproximate FW64 KS64 LM64 Double (Sample.flat Double) tt
           (S 0) ∅) = Some (Complex (S754_zero sign)).
Proof.
  assert (Hbody : forall v,
    fst (@approximateWithArgument FW64 (Sample.flat Double) tt v ∅)
    = ofZ Double 5) by (intros v; reflexivity).
  assert (Hvalue : isFinite (ofZ Double 5) || isZero (ofZ Double 5) = true)
    by (vm_compute; reflexivity).
  assert (Hx : isnan (ofZ Double 2) = false) by (vm_compute; reflexivity).
  assert (Hfac :
    isFinite (mul Double (@k_rateStepSize KS64) (@k_rateStepSize KS64))
    = true) by (vm_compute; reflexivity).
  assert (Hden :
    isFinite (sub Double
                (mul Double (@k_rateStepSize KS64) (@k_rateStepSize KS64))
                (one Double)) = true) by (vm_compute; reflexivity).
  assert (H0 :
    degenerate (mul Double (two Double)
                  (@stepSize KS64 Double (ofZ Double 2)
                     (@k_minInitialRate KS64) 0)) = false)
    by (vm_compute; reflexivity).
  assert (H1 :
    degenerate (mul Double (two Double)
                  (@stepSize KS64 Double (ofZ Double 2)
                     (@k_minInitialRate KS64) 1)) = false)
    by (vm_compute; reflexivity).
  refine (conj (conj Hbody (conj Hvalue (conj Hx (conj Hfac (conj Hden
            (conj H0 H1)))))) _).
  exact (@constant_body_has_derivative_zero FW64 KS64 LM64 Double
           (Sample.flat Double) tt ∅ 0 (ofZ Double 5)
           Hbody Hvalue Hx Hfac Hden H0 H1).
Defined.

End FlatSamples.

(** ** A result of zero *)

Section ZeroResult.

Context `{FW : Framework} `{KS : Constants} `{LM : Libm}.
Variable w : Scalar.Width.
Variable n : DerivativeNode.
Variable angleUnit : AngleUnit.

Import Scalar Shape ScalarFacts ShapeFacts.

(** What the loop returns is the outcome of one run of Ridders'
    algorithm. *)
Lemma stepSearch_some fuel x ctx pair : forall h,
  fst (stepSearch w n angleUnit fuel x h ctx) = Some pair ->
  exists h', pair = fst (riddersApproximation w n angleUnit x h' ctx).
Proof.
  induction fuel as [|fuel IH]; intros h; [discriminate|].
  rewrite stepSearch_S. cbv zeta.
  destruct (_ && _); [apply IH|].
  cbn [fst]. intros [= <-]. by exists h.
Qed.

Lemma riddersApproximation_error_range x h ctx :
  finiteNonnegative
    (snd (fst (riddersApproximation w n angleUnit x h ctx))) = true.
Proof.
  rewrite riddersApproximation_run. cbn [fst snd].
  pose proof (riddersLocals_final w n angleUnit ctx x h) as H.
  cbv zeta in H. revert H.
  generalize (fst (riddersLocals w n angleUnit x h ctx)).
  intros s (_ & _ & _ & _ & Hbest).
  exact (proj1 (best_error_range w _ s Hbest)).
Qed.

(** Against a result of zero an error is acceptable exactly when it is
    zero: 0/0 is not a number and compares above nothing, any other
    quotient is infinite. *)
Lemma unacceptable_zero_result error sign :
  finiteNonnegative error = true ->
  lt k_maxErrorRateOnApproximation pinf = true ->
  unacceptable w error (S754_zero sign) = negb (isZero error).
Proof.
  intros Herror Hthreshold. unfold unacceptable.
  destruct error as [[]|[]| |[] m e]; try discriminate Herror.
  - replace (div w (S754_zero false) (S754_zero sign)) with nan
      by (by destruct w, sign).
    change (lt k_maxErrorRateOnApproximation nan || false = false).
    by rewrite lt_nan_r.
  - replace (fabs (div w (S754_finite false m e) (S754_zero sign)))
      with pinf by (by destruct w, sign).
    change (lt k_maxErrorRateOnApproximation pinf || false = true).
    by rewrite Hthreshold.
Qed.

(** X10.  A derivative that the step search finds to be zero is returned
    only when its error estimate is exactly zero, and then unrounded; with
    any other estimate the relative error is infinite and the derivative
    is undefined.  The threshold is assumed to be below plus infinity. *)
Theorem zero_result_needs_zero_error (ctx : Context) (fuel : nat)
    (result error : spec_float) :
  let x := approximateToScalar (childAtIndex n 2) ctx angleUnit in
  isnan x || isnan (fst (approximateWithArgument n angleUnit x ctx))
  = false ->
  lt k_maxErrorRateOnApproximation pinf = true ->
  fst (stepSearch w n angleUnit fuel x k_minInitialRate ctx)
  = Some (result, error) ->
  isZero result = true ->
  fst (templatedApproximate w n angleUnit fuel ctx)
  = Some (if isZero error then Complex result else Undefined).
Proof.
  intros x Hnan Hthreshold Hfound Hresult.
  assert (Herror : finiteNonnegative error = true).
  { destruct (stepSearch_some _ _ _ _ _ Hfound) as [h' Hpair].
    pose proof (riddersApproximation_error_range x h' ctx) as H.
    by rewrite <- Hpair in H. }
  rewrite templatedApproximate_run. cbv zeta. fold x.
  rewrite Hnan, Hfound. cbn [fst].
  destruct result as [sign|?| |? ? ?]; try discriminate Hresult.
  rewrite (unacceptable_zero_result error sign Herror Hthreshold).
  destruct error as [[]|[]| |[] m e]; try discriminate Herror.
  - cbn [isZero negb]. by destruct w.
  - reflexivity.
Qed.

End ZeroResult.

Section ZeroResultSample.

Import Scalar Shape.

Local Abbreviation FW64 := (Sample.framework Double).
Local Abbreviation KS64 := (Sample.constants Double).
Local Abbreviation LM64 := Sample.libm.

(** X10 on diff(x*x*x, x, 2^60): the search ends with the result 0 and
    the error [DBL_MAX], and the derivative is undefined. *)
Lemma zero_result_needs_zero_error_witness :
  (isnan (ofZ Double (2 ^ 60))
   || isnan (fst (@approximateWithArgument FW64 (Sample.far Double) tt
                    (ofZ Double (2 ^ 60)) ∅)) = false /\
   lt (@k_maxErrorRateOnApproximation KS64) pinf = true /\
   fst (@stepSearch FW64 KS64 Double (Sample.far Double) tt 1076
          (ofZ Double (2 ^ 60)) (@k_minInitialRate KS64) ∅)
   = Some (zero, DBL_MAX) /\
   isZero zero = true) /\
  fst (@templatedApproximate FW64 KS64 LM64 Double (Sample.far Double) tt
         1076 ∅)
  = Some (if isZero DBL_MAX then Complex zero else Undefined).
Proof.
  assert (Hnan :
    isnan (ofZ Double (2 ^ 60))
    || isnan (fst (@approximateWithArgument FW64 (Sample.far Double) tt
                     (ofZ Double (2 ^ 60)) ∅)) = false)
    by (vm_compute; reflexivity).
  assert (Hthreshold : lt (@k_maxErrorRateOnApproximation KS64) pinf = true)
    by (vm_compute; reflexivity).
  assert (Hfound :
    fst (@stepSearch FW64 KS64 Double (Sample.far Double) tt 1076
           (ofZ Double (2 ^ 60)) (@k_minInitialRate KS64) ∅)
    = Some (zero, DBL_MAX)) by (vm_compute; reflexivity).
  assert (Hresult : isZero zero = true) by reflexivity.
  refine (conj (conj Hnan (conj Hthreshold (conj Hfound Hresult))) _).
  exact (@zero_result_needs_zero_error FW64 KS64 LM64 Double
           (Sample.far Double) tt ∅ 1076 zero DBL_MAX
           Hnan Hthreshold Hfound Hresult).
Defined.

End ZeroResultSample.

(** ** Leaving the loop on step sizes *)

Section EarlyExit.

Context `{FW : Framework} `{KS : Constants}.
Variable w : Scalar.Width.
Variable n : DerivativeNode.
Variable angleUnit : AngleUnit.
Variable ctx : Context.
Variable x : spec_float.

Import Scalar.

Lemma diverges_atGeneration s g :
  diverges w (atGeneration s g)
  = gt (fabs (sub w (Table.get (a s) g g)
                    (Table.get (a s) (g - 1) (g - 1))))
       (mul w (two w) (error s)).
Proof. reflexivity. Qed.

Lemma loopOnStepSizes_exit_rule count : forall s,
  (i s + count = 10)%nat -> (1 <= i s)%nat ->
  (i s = 1%nat \/ diverges w (atGeneration s (i s - 1)) = false) ->
  let s' := fst (loopOnStepSizes w n angleUnit x count s ctx) in
  (i s' = 10%nat /\ diverges w (atGeneration s' 9) = false) \/
  ((1 <= i s' <= 9)%nat /\ diverges w s' = true).
Proof.
  induction count as [|count IH]; intros s Hsum Hi Hbefore.
  - left. cbn [loopOnStepSizes fst]. unfold Ctx.ret. cbn [fst].
    split; [lia|]. destruct Hbefore as [H1 | Hfalse]; [lia|].
    by replace (i s - 1)%nat with 9%nat in Hfalse by lia.
  - rewrite loopOnStepSizes_S.
    pose proof (generation_i w n angleUnit ctx x s) as Hg. revert Hg.
    generalize (generation w n angleUnit ctx x s). intros g Hg.
    destruct (diverges w g) eqn:E.
    + right. cbn [fst]. split; [lia|exact E].
    + apply IH; cbn [atGeneration i]; try lia.
      right. replace (S (i g) - 1)%nat with (i g) by lia.
      rewrite diverges_atGeneration. exact E.
Qed.

(** X11.  Ridders' loop on step sizes is left in one of two ways.  Either
    the nine generations were run and the counter is 10: then the test on
    the diagonal, [fabs(a[9][9] - a[8][8]) > 2 * error], failed for the
    ninth.  Or the counter [i] is that of a generation from 1 to 9 for
    which the test succeeded, and the later generations were not run. *)
Theorem early_exit_rule (h : spec_float) :
  let s := fst (riddersLocals w n angleUnit x h ctx) in
  (i s = 10%nat /\ diverges w (atGeneration s 9) = false) \/
  ((1 <= i s <= 9)%nat /\ diverges w s = true /\
   untouched w (i s) (a s)).
Proof.
  cbv zeta.
  pose proof (riddersLocals_final w n angleUnit ctx x h) as Hfinal.
  cbv zeta in Hfinal. revert Hfinal.
  rewrite riddersLocals_unfold. set (s0 := Build_Locals _ _ _ _ _ _).
  pose proof (loopOnStepSizes_exit_rule 9 s0) as H. cbv zeta in H.
  revert H. generalize (fst (loopOnStepSizes w n angleUnit x 9 s0 ctx)).
  intros s H (_ & _ & _ & Hun & _).
  destruct H as [H | [Hi Hd]]; [reflexivity|cbn; lia|by left|by left|].
  right. split; [exact Hi|]. split; [exact Hd|].
  unfold lastGeneration in Hun.
  by replace (Nat.min (i s) 9) with (i s) in Hun by lia.
Qed.

End EarlyExit.

(** ** The subscripts stay within the table *)

Section Subscripts.

Context `{FW : Framework} `{KS : Constants}.
Variable w : Scalar.Width.
Variable n : DerivativeNode.
Variable angleUnit : AngleUnit.

Import Scalar.

Lemma checked_get a r c :
  (r < 10)%nat -> (c < 10)%nat ->
  Checked.get a (Z.of_nat r) (Z.of_nat c) = Some (Table.get a r c).
Proof.
  intros Hr Hc. unfold Checked.get, Checked.inBounds.
  replace (_ && _) with true by (symmetry; lia).
  by rewrite !Nat2Z.id.
Qed.

Lemma checked_set a r c v :
  (r < 10)%nat -> (c < 10)%nat ->
  Checked.set a (Z.of_nat r) (Z.of_nat c) v = Some (Table.set a r c v).
Proof.
  intros Hr Hc. unfold Checked.set, Checked.inBounds.
  replace (_ && _) with true by (symmetry; lia).
  by rewrite !Nat2Z.id.
Qed.

Lemma checked_extrapolate j fac s :
  (1 <= j <= 9)%nat -> (1 <= i s <= 9)%nat ->
  Checked.extrapolate w j fac s = Some (extrapolate w j fac s).
Proof.
  intros Hj Hi. unfold Checked.extrapolate, extrapolate. cbv zeta.
  replace (Z.of_nat j - 1) with (Z.of_nat (j - 1)) by lia.
  replace (Z.of_nat (i s) - 1) with (Z.of_nat (i s - 1)) by lia.
  rewrite !checked_get by lia. cbn [mbind option_bind].
  rewrite checked_set by lia. cbn [mbind option_bind].
  rewrite !checked_get by lia. cbn [mbind option_bind].
  by destruct (lt _ _).
Qed.

Lemma checked_loopOnOrders count : forall j fac s,
  (1 <= j)%nat -> (j + count = 10)%nat -> (1 <= i s <= 9)%nat ->
  Checked.loopOnOrders w count j fac s = Some (loopOnOrders w count j fac s).
Proof.
  induction count as [|count IH]; intros j fac s Hj Hsum Hi; [reflexivity|].
  cbn [Checked.loopOnOrders loopOnOrders].
  rewrite checked_extrapolate by lia. cbn [mbind option_bind].
  apply IH; [lia|lia|]. by rewrite extrapolate_i.
Qed.

Lemma checked_loopOnStepSizes x count : forall s ctx,
  (1 <= i s)%nat -> (i s + count = 10)%nat ->
  Checked.loopOnStepSizes w n angleUnit x count s ctx
  = (Some (fst (loopOnStepSizes w n angleUnit x count s ctx)),
     snd (loopOnStepSizes w n angleUnit x count s ctx)).
Proof.
  induction count as [|count IH]; intros s ctx Hi Hsum; [reflexivity|].
  cbn [Checked.loopOnStepSizes loopOnStepSizes]. cbv zeta.
  unfold Ctx.bind.
  destruct (growthRateAroundAbscissa w n angleUnit x _ ctx)
    as [a0i ctx'].
  change 0 with (Z.of_nat 0).
  rewrite checked_set by lia. cbn [mbind option_bind].
  set (s1 := Build_Locals _ _ _ _ _ _).
  rewrite (checked_loopOnOrders 9 1 _ s1) by (cbn [s1 i]; lia).
  cbn [mbind option_bind].
  pose proof (loopOnOrders_i w 9 1 (ratePower w 1) s1) as Hgen.
  change (i s1) with (i s) in Hgen. revert Hgen.
  change (narrow w (mul Double k_rateStepSize k_rateStepSize))
    with (ratePower w 1).
  generalize (loopOnOrders w 9 1 (ratePower w 1) s1).
  intros s2 Hgen. rewrite <- Hgen.
  replace (Z.of_nat (i s2) - 1) with (Z.of_nat (i s2 - 1)) by lia.
  rewrite !checked_get by lia. cbn [mbind option_bind].
  destruct (gt _ _); [reflexivity|].
  apply IH; cbn [i]; lia.
Qed.

(** X12.  No access to the table [T a[10][10]] is out of bounds: with
    every subscript checked, [j - 1] and [i - 1] included, Ridders'
    algorithm never meets a subscript below 0 or above 9, and it computes
    what it computes without the checks.  The loops have to start at 1
    for that: the body of the loop on orders, entered with the order 0,
    would read the row -1. *)
Theorem table_subscripts_in_bounds (x h : spec_float) (ctx : Context) :
  Checked.riddersLocals w n angleUnit x h ctx
  = (Some (fst (riddersLocals w n angleUnit x h ctx)),
     snd (riddersLocals w n angleUnit x h ctx)) /\
  forall fac s, Checked.extrapolate w 0 fac s = None.
Proof.
  split; [|reflexivity].
  unfold Checked.riddersLocals, riddersLocals. cbv zeta. unfold Ctx.bind.
  destruct (growthRateAroundAbscissa w n angleUnit x _ ctx)
    as [a00 ctx'].
  change 0 with (Z.of_nat 0).
  rewrite checked_set by lia.
  apply checked_loopOnStepSizes; cbn [i]; lia.
Qed.

End Subscripts.
